(** * The advlib example programs: a model of their code and of the
      library contract they exercise.

    The repository ships three example programs, [hello_world.cpp],
    [error_handling.cpp] and [thread_pool_demo.cpp].  They are written
    against the headers of [advlib], which are not part of the tree: the
    [Result]/[Optional] vocabulary and the thread pool are therefore
    modelled from their documented contract, and every such definition
    says so.  The functions the examples define themselves are
    translated from their C++ text. *)

From Stdlib Require Import ZArith Floats Lia.
From Stdlib Require Uint63.
From stdpp Require Import base option list strings gmap sets.

Open Scope Z_scope.

(* ===================================================================== *)
(** * Part I: definitions                                                 *)
(* ===================================================================== *)

(** ** Exceptions and outcomes *)

(** What a C++ [throw] carries, as far as the handlers of the examples can
    tell: an object derived from [std::exception] (with its [what()]
    text) or anything else. *)
Inductive exn : Type :=
  | StdException (what : string)
  | ForeignThrow.

(** The result of running a piece of code that may throw: the tagged
    variant {Value, Error} that a future's slot stores as well. *)
Inductive outcome (A : Type) : Type :=
  | Value (a : A)
  | Error (e : exn).
Arguments Value {A} a.
Arguments Error {A} e.

(** ** The [Result] and [Optional] vocabulary of [advlib/core.hpp] *)

Module Core.

(** Modelled from the spec: [Result<T,E>] of the absent header
    [advlib/core.hpp], a success-or-error sum type built with [Ok] and
    [Err] and used through [map], [and_then], [match], [value_or],
    [is_ok] and [is_err], with their standard meaning. *)
Inductive Result (T E : Type) : Type :=
  | Ok (v : T)
  | Err (e : E).
Arguments Ok {T E} v.
Arguments Err {T E} e.

Definition is_ok {T E} (r : Result T E) : bool :=
  match r with Ok _ => true | Err _ => false end.

Definition is_err {T E} (r : Result T E) : bool :=
  match r with Ok _ => false | Err _ => true end.

(** Modelled from the spec: [Result::map], which applies the function
    to the value of an [Ok] and hands an [Err] on unchanged. *)
Definition map {T U E} (r : Result T E) (f : T -> U) : Result U E :=
  match r with
  | Ok v => Ok (f v)
  | Err e => Err e
  end.

(** Modelled from the spec: [Result::and_then], which feeds the value
    of an [Ok] to the next fallible step and hands an [Err] on
    unchanged. *)
Definition and_then {T U E} (r : Result T E) (f : T -> Result U E)
  : Result U E :=
  match r with
  | Ok v => f v
  | Err e => Err e
  end.

(** Modelled from the spec: [Result::and_then] again, for a
    continuation that has side effects.  A C++ lambda may touch
    anything it captured by reference; here that is a state [S] the
    continuation reads and writes, so that whether it ran shows in the
    state that comes out. *)
Definition and_then_st {T U E S} (r : Result T E)
    (f : T -> S -> Result U E * S) (s : S) : Result U E * S :=
  match r with
  | Ok v => f v s
  | Err e => (Err e, s)
  end.

(** A continuation instrumented with a call counter. *)
Definition counting {T U E} (f : T -> Result U E)
  : T -> nat -> Result U E * nat :=
  fun v calls => (f v, S calls).

Definition value_or {T E} (r : Result T E) (d : T) : T :=
  match r with Ok v => v | Err _ => d end.

(** [r.match(on_ok, on_err)]. *)
Definition match_ {T E R} (r : Result T E) (on_ok : T -> R)
    (on_err : E -> R) : R :=
  match r with Ok v => on_ok v | Err e => on_err e end.

(** Modelled from the spec: [Optional<T>] of the absent header, a
    present-or-absent value with [none()], [has_value], [value_or] and
    [map]. *)
Inductive Optional (T : Type) : Type :=
  | some (v : T)
  | none.
Arguments some {T} v.
Arguments none {T}.

Definition has_value {T} (o : Optional T) : bool :=
  match o with some _ => true | none => false end.

Definition opt_value_or {T} (o : Optional T) (d : T) : T :=
  match o with some v => v | none => d end.

Definition opt_map {T U} (o : Optional T) (f : T -> U) : Optional U :=
  match o with some v => some (f v) | none => none end.

End Core.

(** ** Machine integers *)

(** [static_cast<int>(i)] of an unsigned index, as C++20 defines it: the
    value modulo 2^32, read as a signed 32-bit number. *)
Definition static_cast_int (i : Z) : Z :=
  (i + 2147483648) mod 4294967296 - 2147483648.

Definition INT_MAX : Z := 2147483647.

(** ** error_handling.cpp *)

Module ErrorHandling.
Import Core.

(** [Result<double, String> safe_divide(double a, double b)]. *)
Definition safe_divide (a b : float) : Result float string :=
  if PrimFloat.eqb b 0%float then Err "Division by zero"
  else Ok (PrimFloat.div a b).

(** [Result<double, String> safe_sqrt(double x)]. *)
Definition safe_sqrt (x : float) : Result float string :=
  if PrimFloat.ltb x 0%float
  then Err "Cannot take square root of negative number"
  else Ok (PrimFloat.sqrt x).

(** The loop of [find_element]: [n] iterations are left and the index
    is [i].  The test [i < vec.size()] is the lookup: it fails exactly
    when the index is past the end. *)
Fixpoint find_loop (vec : list Z) (target : Z) (n i : nat)
  : Optional Z :=
  match n with
  | O => none
  | S n' =>
      match vec !! i with
      | None => none
      | Some x =>
          if Z.eqb x target then some (static_cast_int (Z.of_nat i))
          else find_loop vec target n' (S i)
      end
  end.

(** [Optional<int> find_element(const std::vector<int>& vec, int target)]. *)
Definition find_element (vec : list Z) (target : Z) : Optional Z :=
  find_loop vec target (length vec) 0.

(** [Result<double, String> complex_calculation(double a, double b, double c)]. *)
Definition complex_calculation (a b c : float) : Result float string :=
  map
    (and_then (safe_divide a b)
              (fun result => safe_sqrt (PrimFloat.add result c)))
    (fun result => PrimFloat.mul result 2%float).

(** [k] is the lowest index at which [target] sits in [vec]. *)
Definition first_occurrence (vec : list Z) (target : Z) (k : nat) : Prop :=
  vec !! k = Some target /\ forall j, (j < k)%nat -> vec !! j <> Some target.

End ErrorHandling.

(** ** Programs that log, print and may throw *)

Module Process.

(** A value handed to a [{}] place of a log format, or to [std::cout]. *)
Inductive arg : Type :=
  | ArgDouble (d : float)
  | ArgInt (z : Z)
  | ArgStr (s : string).

(** How a process ends: [main] returned a code, or an exception left
    [main] and [std::terminate] aborted the process. *)
Inductive exit_status : Type :=
  | Exited (code : Z)
  | Terminated.

Section Monad.
(** [W] is everything outside the program: the log sinks, the
    standard output, the pool's threads. *)
Context {W : Type}.

Definition M (A : Type) : Type := W -> outcome A * W.

Definition ret {A} (a : A) : M A := fun w => (Value a, w).

Definition bind {A B} (m : M A) (k : A -> M B) : M B :=
  fun w =>
    match m w with
    | (Value a, w') => k a w'
    | (Error e, w') => (Error e, w')
    end.

Definition throw {A} (e : exn) : M A := fun w => (Error e, w).

(** [try { body } catch (const std::exception& e) { handler(e.what()) }]:
    only what derives from [std::exception] is caught. *)
Definition try_catch_std {A} (body : M A) (handler : string -> M A) : M A :=
  fun w =>
    match body w with
    | (Error (StdException what), w') => handler what w'
    | r => r
    end.

(** Every normal return of [m] carries the code [c]. *)
Definition returns_only (c : Z) (m : M Z) : Prop :=
  forall w c' w', m w = (Value c', w') -> c' = c.

(** The process around [main]. *)
Definition run_main (main : M Z) (w : W) : exit_status * W :=
  match main w with
  | (Value code, w') => (Exited code, w')
  | (Error _, w') => (Terminated, w')
  end.
End Monad.

Arguments M : clear implicits.

(** Sequencing is written with stdpp's monad notations, [m ;; k] and
    [x ← m; k]. *)
#[global] Instance M_ret {W} : MRet (M W) := fun A => ret.
#[global] Instance M_bind {W} : MBind (M W) := fun A B k m => bind m k.

(** Modelled from the spec: the logging facility and the standard
    output, which the examples only call.  Each call acts on the
    outside world and, like any C++ call that is not [noexcept], may
    throw. *)
Record Lib (W Level : Type) : Type := {
  Info : Level;
  log_init : Level -> M W unit;
  log_info : string -> list arg -> M W unit;
  log_warn : string -> list arg -> M W unit;
  log_error : string -> list arg -> M W unit;
  cout : list arg -> M W unit;
}.
Arguments Info {W Level} _.
Arguments log_init {W Level} _ _ _.
Arguments log_info {W Level} _ _ _ _.
Arguments log_warn {W Level} _ _ _ _.
Arguments log_error {W Level} _ _ _ _.
Arguments cout {W Level} _ _ _.

End Process.

(** ** hello_world.cpp *)

Module HelloWorld.
Import Process.

Section Main.
Context {W Level : Type} (lib : Lib W Level).
(** The version macros come from the absent header. *)
Variables ADVLIB_VERSION_MAJOR ADVLIB_VERSION_MINOR ADVLIB_VERSION_PATCH : Z.

Definition main : M W Z :=
  log_init lib (Info lib) ;;
  log_info lib "Hello, AdvLib!" [] ;;
  let message := "Welcome to C++ Advanced Library" in
  cout lib [ArgStr message] ;;
  cout lib [ArgStr "AdvLib Version: ";
            ArgInt ADVLIB_VERSION_MAJOR; ArgStr ".";
            ArgInt ADVLIB_VERSION_MINOR; ArgStr ".";
            ArgInt ADVLIB_VERSION_PATCH] ;;
  let name := "World" in
  let greeting := ("Hello, " +:+ name) +:+ "!" in
  log_info lib greeting [] ;;
  ret 0.
End Main.

End HelloWorld.

(** ** error_handling.cpp, [main] *)

Module ErrorHandlingMain.
Import Core ErrorHandling Process.

(** [numbers[idx]] for an index the vector has. *)
Definition vec_at (vec : list Z) (idx : Z) : Z :=
  default 0 (vec !! Z.to_nat idx).

Section Main.
Context {W Level : Type} (lib : Lib W Level).

Definition main : M W Z :=
  log_init lib (Info lib) ;;
  (* Example 1 *)
  log_info lib "=== Example 1: Basic Result ===" [] ;;
  let result1 := safe_divide 10 2 in
  (* if (result1.is_ok()) log::info(..., result1.value()) *)
  match_ result1
    (fun value => log_info lib "10 / 2 = {}" [ArgDouble value])
    (fun _ => ret tt) ;;
  let result2 := safe_divide 10 0 in
  (* if (result2.is_err()) log::error(..., result2.error()) *)
  match_ result2
    (fun _ => ret tt)
    (fun error => log_error lib "Error: {}" [ArgStr error]) ;;
  (* Example 2 *)
  log_info lib "\n=== Example 2: Pattern Matching ===" [] ;;
  match_ (safe_divide 20 4)
    (fun value => log_info lib "Success: 20 / 4 = {}" [ArgDouble value])
    (fun error => log_error lib "Failed: {}" [ArgStr error]) ;;
  (* Example 3 *)
  log_info lib "\n=== Example 3: Chaining Operations ===" [] ;;
  let result3 :=
    map (map (safe_divide 100 4) (fun x => PrimFloat.mul x 2))
        (fun x => PrimFloat.add x 10) in
  log_info lib "Result: {}" [ArgDouble (value_or result3 0%float)] ;;
  (* Example 4 *)
  log_info lib "\n=== Example 4: Complex Calculation ===" [] ;;
  let calc_result := complex_calculation 16 4 0 in
  match_ calc_result
    (fun value => log_info lib "Calculation result: {}" [ArgDouble value])
    (fun error => log_error lib "Calculation failed: {}" [ArgStr error]) ;;
  (* Example 5 *)
  log_info lib "\n=== Example 5: Optional Values ===" [] ;;
  let numbers := [10; 20; 30; 40; 50] in
  let found := find_element numbers 30 in
  match found with
  | some index => log_info lib "Found 30 at index {}" [ArgInt index]
  | none => log_warn lib "Element not found" []
  end ;;
  let not_found := find_element numbers 99 in
  let index := opt_value_or not_found (-1) in
  log_info lib "Element 99 index: {} (default)" [ArgInt index] ;;
  (* Example 6 *)
  log_info lib "\n=== Example 6: Optional Transformations ===" [] ;;
  let upper_bound :=
    opt_value_or
      (opt_map (find_element numbers 40)
               (fun idx => vec_at numbers idx * 2))
      0 in
  log_info lib "Upper bound: {}" [ArgInt upper_bound] ;;
  ret 0.
End Main.

End ErrorHandlingMain.

(** ** thread_pool_demo.cpp, [main] *)

Module ThreadPoolDemoMain.
Import Process.

Section Main.
Context {W Level : Type} (lib : Lib W Level).
(** [std::thread::hardware_concurrency()]. *)
Variable hardware_concurrency : Z.
(** The six demo functions, each run for its effect on the world. *)
Variables demo_basic_thread_pool demo_parallel_processing
  demo_batch_processing demo_task_cancellation
  demo_exception_handling demo_priority_scheduling : M W unit.

(** What [main] does before it enters the [try] block. *)
Definition prelude : M W unit :=
  log_init lib (Info lib) ;;
  log_info lib "Thread Pool Demonstration" [] ;;
  log_info lib "Hardware Concurrency: {} threads\n"
    [ArgInt hardware_concurrency].

(** The body of the [try] block. *)
Definition run_demos : M W unit :=
  demo_basic_thread_pool ;;
  demo_parallel_processing ;;
  demo_batch_processing ;;
  demo_task_cancellation ;;
  demo_exception_handling ;;
  demo_priority_scheduling ;;
  log_info lib "\n=== All demos completed successfully ===" [].

(** The [try] statement yields the code its handler returns, if it
    ran; [main] returns 0 after it otherwise. *)
Definition main : M W Z :=
  prelude ;;
  returned ←
    try_catch_std
      (run_demos ;; ret None)
      (fun what =>
         log_error lib "Fatal error: {}" [ArgStr what] ;; ret (Some 1));
  match returned with
  | Some code => ret code
  | None => ret 0
  end.
End Main.

End ThreadPoolDemoMain.

(** ** The thread pool of [advlib/concurrency/thread_pool.hpp] *)

Module ThreadPool.
Import Process.

Section WithResult.
(** The type of the values the tasks return, and the library the
    callables log through, which acts on the world [W]. *)
Context {A W Level : Type} (lib : Lib W Level).

(** What is left to run of a task body.  The callables of the demos
    return a value, throw, ask [should_cancel()], sleep, and log a line
    with [log::info]. *)
Inductive body : Type :=
  | Done (o : outcome A)
  | ShouldCancel (k : bool -> body)
  | Sleep (ms : Z) (k : body)
  | LogInfo (fmt : string) (args : list arg) (k : body).

(** The number of moves a body can still make, at most. *)
Fixpoint depth (b : body) : nat :=
  match b with
  | Done _ => 0
  | ShouldCancel k => S (Nat.max (depth (k true)) (depth (k false)))
  | Sleep _ k => S (depth k)
  | LogInfo _ _ k => S (depth k)
  end.

(** One move of a body on the thread that runs it, with the answer
    [cancelled] for a query and the world [w] for a logged line: the
    body that is left and the world after the move, or the outcome of a
    body that is at its end.  A [log::info] that throws ends the body
    with its exception. *)
Definition body_step (cancelled : bool) (b : body) (w : W)
  : body * W + outcome A :=
  match b with
  | Done o => inr o
  | ShouldCancel k => inl (k cancelled, w)
  | Sleep _ k => inl (k, w)
  | LogInfo fmt args k =>
      match log_info lib fmt args w with
      | (Value _, w') => inl (k, w')
      | (Error e, w') => inl (Done (Error e), w')
      end
  end.

(** The body run to its end on its own in the world [w], every query
    answered [c]: what it ends with and the world it leaves. *)
Fixpoint run_body (c : bool) (b : body) (w : W) : outcome A * W :=
  match b with
  | Done o => (o, w)
  | ShouldCancel k => run_body c (k c) w
  | Sleep _ k => run_body c k w
  | LogInfo fmt args k =>
      match log_info lib fmt args w with
      | (Value _, w') => run_body c k w'
      | (Error e, w') => (Error e, w')
      end
  end.

(** The outcomes a body can end with when its queries are answered
    [cancelled]: through a logged line it goes on when the library can
    return from that call, and ends with [e] when the library can throw
    [e] from it. *)
Inductive outcomes (cancelled : bool) : body -> outcome A -> Prop :=
  | outcomes_done o : outcomes cancelled (Done o) o
  | outcomes_query k o :
      outcomes cancelled (k cancelled) o ->
      outcomes cancelled (ShouldCancel k) o
  | outcomes_sleep ms k o :
      outcomes cancelled k o -> outcomes cancelled (Sleep ms k) o
  | outcomes_logged fmt args k o w w' :
      log_info lib fmt args w = (Value tt, w') ->
      outcomes cancelled k o ->
      outcomes cancelled (LogInfo fmt args k) o
  | outcomes_log_throws fmt args k e w w' :
      log_info lib fmt args w = (Error e, w') ->
      outcomes cancelled (LogInfo fmt args k) (Error e).

(** Modelled from the spec: a Task, "a deferred unit of work plus an
    associated result slot"; the slot is named by [task_id], which is
    also what the Future handed to the caller holds. *)
Record task : Type := Task { task_id : nat; task_body : body }.

(** Modelled from the spec: a worker is a long-lived loop that waits
    for a task, executes it, stores its result or exception into its
    future, and repeats. *)
Inductive worker : Type :=
  | Idle
  | Running (t : task).

(** Modelled from the spec: the Pool "owns N worker execution contexts
    and a task queue"; futures are result slots shared between caller
    and worker, written at most once; a cancelable handle adds a flag
    that [cancel()] sets and the body polls.  [world] is the world the
    process acts on, which the callables reach through the library. *)
Record pool : Type := Pool {
  workers : list worker;
  queue : list task;
  slots : gmap nat (outcome A);
  cancel_flags : gset nat;
  next_id : nat;
  world : W;
}.

(** [ThreadPool pool(n)], created in the world [w]. *)
Definition new_pool (n : nat) (w : W) : pool :=
  Pool (replicate n Idle) [] ∅ ∅ 0 w.

(** Modelled from the spec: [submit(callable)] "enqueues a task ...;
    returns a Future"; it never blocks. *)
Definition submit (p : pool) (b : body) : pool * nat :=
  (Pool (workers p) (queue p ++ [Task (next_id p) b]) (slots p)
        (cancel_flags p) (S (next_id p)) (world p),
   next_id p).

(** Modelled from the spec: [submit_cancelable(callable)] is "like
    submit, but also allocates a shared cancellation flag visible to the
    task body"; the flag of a fresh handle is unset. *)
Definition submit_cancelable (p : pool) (b : body) : pool * nat :=
  submit p b.

(** Modelled from the spec: [cancel()] "sets the flag, does not
    interrupt execution". *)
Definition cancel (p : pool) (handle : nat) : pool :=
  Pool (workers p) (queue p) (slots p) ({[handle]} ∪ cancel_flags p)
       (next_id p) (world p).

(** Modelled from the spec: [Future.get()] "blocks the calling thread
    until the slot is resolved; if the task body raised an error,
    get() re-raises it in the calling thread".  [None]: the caller is
    still blocked; [Some (Value v)]: [get] returns [v]; [Some (Error e)]:
    [get] throws [e] in the caller. *)
Definition get (p : pool) (future : nat) : option (outcome A) :=
  slots p !! future.

(** The calling thread has acted on the world while the pool exists. *)
Definition set_world (p : pool) (w : W) : pool :=
  Pool (workers p) (queue p) (slots p) (cancel_flags p) (next_id p) w.

(** Modelled from the spec: one step of worker [i].  An idle worker
    claims the task at the front of the queue (and waits when there is
    none); a running worker lets the body it owns make a move; at the
    boundary of the body it captures the value or the exception into
    the task's slot and goes back to waiting, whichever of the two it
    was. *)
Definition worker_step (i : nat) (p : pool) : option pool :=
  match workers p !! i with
  | None => None
  | Some Idle =>
      match queue p with
      | [] => None
      | t :: rest =>
          Some (Pool (<[i := Running t]> (workers p)) rest (slots p)
                     (cancel_flags p) (next_id p) (world p))
      end
  | Some (Running (Task id b)) =>
      match body_step (bool_decide (id ∈ cancel_flags p)) b (world p) with
      | inl (b', w') =>
          Some (Pool (<[i := Running (Task id b')]> (workers p)) (queue p)
                     (slots p) (cancel_flags p) (next_id p) w')
      | inr o =>
          Some (Pool (<[i := Idle]> (workers p)) (queue p)
                     (<[id := o]> (slots p)) (cancel_flags p) (next_id p)
                     (world p))
      end
  end.

(** The pool moves when some worker does; which one is not decided. *)
Definition step (p p' : pool) : Prop :=
  exists i, worker_step i p = Some p'.

Definition steps : relation pool := rtc step.

(** No worker can move: nothing is queued for an idle worker and nothing
    is running. *)
Definition quiescent (p : pool) : Prop :=
  forall i, worker_step i p = None.

(** A schedule names the worker that moves next; a worker that cannot
    move lets its turn pass. *)
Definition run_schedule (schedule : list nat) (p : pool) : pool :=
  foldl (fun q i => default q (worker_step i q)) p schedule.

(** The tasks a worker is running. *)
Definition running (ws : list worker) : list task :=
  omap (fun w => match w with Idle => None | Running t => Some t end) ws.

(** The tasks that are submitted and not completed. *)
Definition pending (p : pool) : list task :=
  queue p ++ running (workers p).

(** Modelled from the spec: [parallel_map(collection, fn)] "submits one
    task per element, blocks until all complete, returns results in the
    same order as the input ... a convenience built from submit +
    ordered gather".  Its submissions are [submit_all]; the workers may
    move between any two of them, and after the last. *)
Inductive submit_all : pool -> list body -> pool -> list nat -> Prop :=
  | submit_all_nil p p' :
      steps p p' -> submit_all p [] p' []
  | submit_all_cons p p1 b bs p' futures :
      steps p p1 ->
      submit_all (submit p1 b).1 bs p' futures ->
      submit_all p (b :: bs) p' ((submit p1 b).2 :: futures).

(** The ordered gather: [get] on each future, in the order of the
    input; [None] while one of them still blocks. *)
Definition gather (p : pool) (futures : list nat) : option (list (outcome A)) :=
  mapM (get p) futures.

(** [parallel_map(collection, fn)] returns [results] in the state [p']:
    every task was submitted and every [get] of the gather returned a
    value. *)
Definition parallel_map_returns {X} (p : pool) (collection : list X)
    (task_of : X -> body) (p' : pool) (results : list A) : Prop :=
  exists futures,
    submit_all p (task_of <$> collection) p' futures /\
    gather p' futures = Some (Value <$> results).

(** Modelled from the spec: destruction of the pool "must signal all
    workers to stop pulling new work, then join every worker thread,
    only after allowing any already-claimed task to finish".  A worker
    that holds a task moves; no task is claimed. *)
Definition finish_step (p p' : pool) : Prop :=
  exists i t, workers p !! i = Some (Running t) /\ worker_step i p = Some p'.

(** The pool is destroyed in the state [p] and leaves the world [w']:
    the tasks that were claimed have run to their end. *)
Definition destroy (p : pool) (w' : W) : Prop :=
  exists p', rtc finish_step p p' /\ running (workers p') = [] /\ w' = world p'.

(** *** Invariants of the pool *)

(** The flag a task with this id reads. *)
Definition flag (p : pool) (id : nat) : bool :=
  bool_decide (id ∈ cancel_flags p).

(** The ids of the unfinished tasks are pairwise distinct, were handed
    out by this pool, and their slots are unresolved; every resolved
    slot and every flag belongs to an id that was handed out. *)
Definition wf (p : pool) : Prop :=
  NoDup (task_id <$> pending p) /\
  (forall t, t ∈ pending p ->
     (task_id t < next_id p)%nat /\ slots p !! task_id t = None) /\
  (forall id, is_Some (slots p !! id) -> (id < next_id p)%nat) /\
  (forall id, id ∈ cancel_flags p -> (id < next_id p)%nat).

(** The future [f] is bound to end in [S]: its task is unfinished and
    every outcome that what is left of it can end with, under the flag
    it reads, is in [S]; or its slot holds an outcome in [S]. *)
Definition tracks (f : nat) (S : outcome A -> Prop) (p : pool) : Prop :=
  (exists b, Task f b ∈ pending p /\
             forall o, outcomes (flag p f) b o -> S o) \/
  (exists o, slots p !! f = Some o /\ S o).

(** A bound on the number of steps the workers can still take. *)
Definition weight (ts : list task) : nat :=
  sum_list_with (fun t => S (depth (task_body t))) ts.

Definition measure (p : pool) : nat :=
  (length (queue p) + weight (pending p))%nat.

(** The task a worker holds, as a list. *)
Definition on_worker (w : worker) : list task :=
  match w with Idle => [] | Running t => [t] end.

(** The three kinds of step, by what they do to the unfinished tasks,
    to the slots and to the world: a claim moves a task from the queue
    to a worker; an advance lets one running body make a move; a finish
    removes a task and resolves its slot. *)
Inductive step_kind (p p' : pool) : Prop :=
  | kind_claim :
      pending p' ≡ₚ pending p ->
      (length (queue p') < length (queue p))%nat ->
      slots p' = slots p ->
      world p' = world p ->
      step_kind p p'
  | kind_advance id b b' others :
      pending p ≡ₚ Task id b :: others ->
      pending p' ≡ₚ Task id b' :: others ->
      queue p' = queue p ->
      slots p' = slots p ->
      body_step (flag p id) b (world p) = inl (b', world p') ->
      step_kind p p'
  | kind_finish id o :
      pending p ≡ₚ Task id (Done o) :: pending p' ->
      queue p' = queue p ->
      slots p' = <[id := o]> (slots p) ->
      world p' = world p ->
      step_kind p p'.

End WithResult.

Arguments body : clear implicits.
Arguments task : clear implicits.
Arguments worker : clear implicits.
Arguments pool : clear implicits.

(** The task of [parallel_map] for the element [x]. *)
Definition map_task {X A} (fn : X -> A) (x : X) : body A :=
  Done (Value (fn x)).

(** *** The callables of thread_pool_demo.cpp *)

(** The callable of [demo_exception_handling]: it logs a line and
    throws [std::runtime_error("Task failed!")]; the [return 42] behind
    the [throw] is never reached. *)
Definition throwing_task : body Z :=
  LogInfo "Task throwing exception..." []
    (Done (Error (StdException "Task failed!"))).

(** The callable of [demo_task_cancellation], at iteration [i] with [n]
    iterations of its loop left: ask [should_cancel()]; when it says
    so, log the iteration and return -1; sleep 10 ms otherwise; return
    1000 after the last iteration. *)
Fixpoint cancelable_loop (n : nat) (i : Z) : body Z :=
  match n with
  | O => Done (Value 1000)
  | S n' =>
      ShouldCancel (fun cancelled =>
        if cancelled
        then LogInfo "Task cancelled at iteration {}" [ArgInt i]
               (Done (Value (-1)))
        else Sleep 10 (cancelable_loop n' (i + 1)))
  end.

Definition cancelable_task : body Z := cancelable_loop 1000 0.

(** The callable of [demo_batch_processing], [x * x] on [int]. *)
Definition square (x : Z) : Z := x * x.

End ThreadPool.

(** ** The priority pool of [advlib/concurrency/thread_pool.hpp] *)

Module PriorityThreadPool.

(** Modelled from the spec: the priority levels, an "ordered set
    {Critical > High > Medium > Low}". *)
Inductive Priority : Type := Low | Medium | High | Critical.

#[global] Instance Priority_eq_dec : EqDecision Priority.
Proof. solve_decision. Defined.

(** The rank of a level in the queue: the lower, the sooner. *)
Definition rank (l : Priority) : nat :=
  match l with Critical => 0 | High => 1 | Medium => 2 | Low => 3 end.

Section WithCallable.
(** What tells the callables apart; for the demo, the line each logs. *)
Context {L : Type}.

(** Modelled from the spec: a PriorityTask, "a Task annotated with a
    priority level", queued under the key "(priority-rank, monotonic
    sequence number)". *)
Record entry : Type := Entry { level : Priority; seq : nat; callable : L }.

(** [u] goes before [t] when its key is not greater. *)
Definition before (u t : entry) : bool :=
  (rank (level u) <? rank (level t))%nat
  || ((rank (level u) =? rank (level t))%nat && (seq u <=? seq t)%nat).

(** Insertion into the queue, which is kept in the order of the keys. *)
Fixpoint enqueue (t : entry) (q : list entry) : list entry :=
  match q with
  | [] => [t]
  | u :: rest => if before u t then u :: enqueue t rest else t :: u :: rest
  end.

(** Modelled from the spec: a worker of the "same worker-loop model":
    it waits, or it has taken a task from the queue and is about to
    call it, or it is in the call. *)
Inductive worker : Type :=
  | Idle
  | Claimed (t : entry)
  | Running (t : entry).

(** Modelled from the spec: the priority pool has the "same worker-loop
    model but the shared queue is a priority queue".  [started] is the
    order in which the tasks were observed to start, oldest first. *)
Record pool : Type := Pool {
  workers : list worker;
  queue : list entry;
  started : list L;
  next_seq : nat;
}.

(** [PriorityThreadPool pool(n)]. *)
Definition new_pool (n : nat) : pool := Pool (replicate n Idle) [] [] 0.

(** Modelled from the spec: [submit_priority(level, callable)]
    "enqueues accordingly". *)
Definition submit_priority (p : pool) (l : Priority) (c : L) : pool :=
  Pool (workers p) (enqueue (Entry l (next_seq p) c) (queue p)) (started p)
       (S (next_seq p)).

(** Submissions one after the other, with no task taken from the queue
    in between. *)
Definition submit_batch (p : pool) (batch : list (Priority * L)) : pool :=
  foldl (fun q x => submit_priority q x.1 x.2) p batch.

(** One step of worker [i]: an idle worker takes the front of the
    queue, under the lock; a worker that has taken a task calls it,
    which is when the task is observed to start; a worker in a call
    comes to the end of it. *)
Definition worker_step (i : nat) (p : pool) : option pool :=
  match workers p !! i with
  | None => None
  | Some Idle =>
      match queue p with
      | [] => None
      | t :: rest =>
          Some (Pool (<[i := Claimed t]> (workers p)) rest (started p)
                     (next_seq p))
      end
  | Some (Claimed t) =>
      Some (Pool (<[i := Running t]> (workers p)) (queue p)
                 (started p ++ [callable t]) (next_seq p))
  | Some (Running _) =>
      Some (Pool (<[i := Idle]> (workers p)) (queue p) (started p)
                 (next_seq p))
  end.

Definition step (p p' : pool) : Prop := exists i, worker_step i p = Some p'.

(** A step of a worker that holds a task: it calls the task or comes to
    the end of the call, and takes nothing from the queue. *)
Definition busy_step (p p' : pool) : Prop :=
  exists i w, workers p !! i = Some w /\ w <> Idle /\ worker_step i p = Some p'.

(** Submissions that are all in the queue before a worker next takes a
    task from it: between them the workers only go on with the tasks
    they hold. *)
Inductive submit_ahead : pool -> list (Priority * L) -> pool -> Prop :=
  | submit_ahead_nil p p' :
      rtc busy_step p p' -> submit_ahead p [] p'
  | submit_ahead_cons p p1 x batch p' :
      rtc busy_step p p1 ->
      submit_ahead (submit_priority p1 x.1 x.2) batch p' ->
      submit_ahead p (x :: batch) p'.

Definition steps : relation pool := rtc step.

(** What [wait_all()] waits for: the queue is empty and no task is in
    flight, so no worker can move. *)
Definition quiescent (p : pool) : Prop := forall i, worker_step i p = None.

Definition run_schedule (schedule : list nat) (p : pool) : pool :=
  foldl (fun q i => default q (worker_step i q)) p schedule.

(** The callables submitted at level [l], in the order of submission. *)
Definition at_level (l : Priority) (batch : list (Priority * L)) : list L :=
  (filter (fun x => x.1 = l) batch).*2.

(** Highest priority first, submission order within a priority. *)
Definition by_priority (batch : list (Priority * L)) : list L :=
  at_level Critical batch ++ at_level High batch
  ++ at_level Medium batch ++ at_level Low batch.

(** *** Invariants of the queue *)

(** The entries of [q] at level [l]. *)
Definition bucket (l : Priority) (q : list entry) : list entry :=
  filter (fun u => level u = l) q.

(** What is queued at level [l], followed by what a batch adds to that
    level. *)
Definition level_order (l : Priority) (q : list entry)
    (batch : list (Priority * L)) : list L :=
  (callable <$> bucket l q) ++ at_level l batch.

(** The order in which a queue that receives a batch is emptied. *)
Definition queue_order (q : list entry) (batch : list (Priority * L)) : list L :=
  level_order Critical q batch ++ level_order High q batch
  ++ level_order Medium q batch ++ level_order Low q batch.

(** No entry of the queue has an entry of lower rank behind it. *)
Fixpoint ranked (q : list entry) : Prop :=
  match q with
  | [] => True
  | u :: rest =>
      Forall (fun v => (rank (level u) <= rank (level v))%nat) rest
      /\ ranked rest
  end.


(** The task a worker has taken and not yet called. *)
Definition about_to_start (w : worker) : list L :=
  match w with Claimed t => [callable t] | _ => [] end.

(** The tasks taken and not yet called, over all workers. *)
Definition claimed (ws : list worker) : list L :=
  concat (about_to_start <$> ws).

(** The steps a worker can take before it waits again. *)
Definition load (w : worker) : nat :=
  match w with Idle => 0 | Claimed _ => 2 | Running _ => 1 end.

(** A bound on the number of steps the workers can still take. *)
Definition measure (p : pool) : nat :=
  (3 * length (queue p) + sum_list (load <$> workers p))%nat.

End WithCallable.

Arguments entry : clear implicits.
Arguments worker : clear implicits.
Arguments pool : clear implicits.

(** The four submissions of [demo_priority_scheduling], each callable
    named by the line it logs. *)
Definition demo_submissions : list (Priority * string) :=
  [ (Low, "Low priority task");
    (High, "High priority task (should run first)");
    (Medium, "Medium priority task");
    (Critical, "Critical priority task (should run first)") ].

End PriorityThreadPool.

(** ** Two concrete libraries to run the programs against *)

Module Worlds.
Import Process.

(** The world is the list of lines written so far, newest first. *)
Definition trace : Type := list (string * list arg).

Definition emit (channel : string) (fmt : string) (args : list arg)
  : M trace unit :=
  fun w => (Value tt, (channel +:+ fmt, args) :: w).

(** A library whose calls all succeed. *)
Definition quiet_lib : Lib trace unit := {|
  Info := tt;
  log_init := fun _ => ret tt;
  log_info := emit "info: ";
  log_warn := emit "warn: ";
  log_error := emit "error: ";
  cout := emit "cout: " "";
|}.

(** A library whose [log::info] throws, as a sink that cannot be
    written does. *)
Definition failing_log_lib : Lib trace unit := {|
  Info := tt;
  log_init := fun _ => ret tt;
  log_info := fun _ _ => throw (StdException "log sink unavailable");
  log_warn := emit "warn: ";
  log_error := emit "error: ";
  cout := emit "cout: " "";
|}.

(** A library whose [log::info] throws on one line and writes the
    others. *)
Definition failing_on (line : string) : Lib trace unit := {|
  Info := tt;
  log_init := fun _ => ret tt;
  log_info := fun fmt args =>
    if String.eqb fmt line then throw (StdException "log sink unavailable")
    else emit "info: " fmt args;
  log_warn := emit "warn: ";
  log_error := emit "error: ";
  cout := emit "cout: " "";
|}.

(** A demo function that lets a [std::exception] escape. *)
Definition failing_demo : M trace unit :=
  throw (StdException "Task failed!").

End Worlds.

(** ** Signs of IEEE values *)

Module FloatSigns.

(** The value is not below zero: a NaN, a zero of either sign, or a
    positive number or infinity.  These are the values [v] for which
    [v < 0.0] is false. *)
Definition not_below_zero (s : SpecFloat.spec_float) : Prop :=
  match s with
  | SpecFloat.S754_infinity sign | SpecFloat.S754_finite sign _ _ => sign = false
  | _ => True
  end.

End FloatSigns.

(** ** thread_pool_demo.cpp: the functions around the pool *)

Module ThreadPoolDemo.
Import ThreadPool Process.

(** The conversion of an [int] that is not negative to [double]; it is
    exact, an [int] having fewer than 53 bits. *)
Definition double_of_int (i : Z) : float :=
  PrimFloat.of_uint63 (Uint63.of_Z i).

Definition NUM_TASKS : Z := 100.
Definition WORK_SIZE : Z := 10000.

(** What a call of a function that counts in [int] comes to: it returns
    a value; or it increments an [int] that holds [INT_MAX], which C++
    leaves undefined; or the bound on its iterations was too low. *)
Inductive computed (A : Type) : Type :=
  | Returns (a : A)
  | Overflows
  | OutOfFuel.
Arguments Returns {A} a.
Arguments Overflows {A}.
Arguments OutOfFuel {A}.

(** The value of a call that returns one. *)
Definition returned {A} (c : computed A) : option A :=
  match c with Returns a => Some a | _ => None end.

Section Expensive.
(** [std::sin] and [std::cos] on [double], which the C library provides. *)
Variables sin cos : float -> float.

(** [std::sqrt(i) * std::sin(i) * std::cos(i)]. *)
Definition term (i : Z) : float :=
  PrimFloat.mul
    (PrimFloat.mul (PrimFloat.sqrt (double_of_int i)) (sin (double_of_int i)))
    (cos (double_of_int i)).

(** The loop of [expensive_computation], at its test [i <= n] with
    [result] accumulated so far; [fuel] bounds the iterations that are
    left.  After the body of an iteration comes [++i], on an [int]. *)
Fixpoint expensive_loop (fuel : nat) (n i : Z) (result : float)
  : computed float :=
  if i <=? n
  then
    match fuel with
    | O => OutOfFuel
    | S fuel' =>
        if i =? INT_MAX then Overflows
        else expensive_loop fuel' n (i + 1) (PrimFloat.add result (term i))
    end
  else Returns result.

(** [double expensive_computation(int n)]; the loop runs [n] times when
    [n] is positive and not at all otherwise. *)
Definition expensive_computation (n : Z) : computed float :=
  expensive_loop (Z.to_nat n) n 1 0%float.
End Expensive.

Section WithResult.
Context {A W Level : Type} (lib : Lib W Level).

(** A callable run on its own in the world [w] against the answers its
    [should_cancel()] queries get, the i-th query getting [answers i]:
    what it ends with, how many queries it has made and for how many
    milliseconds it has asked to sleep, counted from [asked] and
    [slept], and the world it leaves. *)
Fixpoint run_with (answers : nat -> bool) (b : body A) (asked : nat) (slept : Z)
    (w : W) : outcome A * nat * Z * W :=
  match b with
  | Done o => (o, asked, slept, w)
  | ShouldCancel k => run_with answers (k (answers asked)) (S asked) slept w
  | Sleep ms k => run_with answers k asked (slept + ms) w
  | LogInfo fmt args k =>
      match log_info lib fmt args w with
      | (Value _, w') => run_with answers k asked slept w'
      | (Error e, w') => (Error e, asked, slept, w')
      end
  end.

(** Whatever its queries are answered and whatever the lines it logs
    come to, the body ends with an outcome in [S]. *)
Inductive ends_in (S : outcome A -> Prop) : body A -> Prop :=
  | ends_in_done o : S o -> ends_in S (Done o)
  | ends_in_query k : (forall c, ends_in S (k c)) -> ends_in S (ShouldCancel k)
  | ends_in_sleep ms k : ends_in S k -> ends_in S (Sleep ms k)
  | ends_in_log fmt args k :
      (forall w e w', log_info lib fmt args w = (Error e, w') -> S (Error e)) ->
      ends_in S k ->
      ends_in S (LogInfo fmt args k).

(** Every unfinished body ends in [S] and every resolved slot holds an
    outcome in [S]. *)
Definition all_end_in (S : outcome A -> Prop) (p : pool A W) : Prop :=
  (forall t, t ∈ pending p -> ends_in S (task_body t)) /\
  (forall id o, slots p !! id = Some o -> S o).

(** The body logs nothing. *)
Fixpoint no_log (b : body A) : Prop :=
  match b with
  | Done _ => True
  | ShouldCancel k => no_log (k true) /\ no_log (k false)
  | Sleep _ k => no_log k
  | LogInfo _ _ _ => False
  end.

(** No unfinished task of the pool logs. *)
Definition quiet (p : pool A W) : Prop :=
  forall t, t ∈ pending p -> no_log (task_body t).

(** The task of the future [f] is the only one the pool has been
    given.  With its queries answered [c], its run from where it is
    comes to [R], or has come to it. *)
Definition sole (f : nat) (c : bool) (R : outcome A * W) (p : pool A W) : Prop :=
  (exists b, pending p = [Task f b] /\ slots p !! f = None /\ flag p f = c /\
             run_body lib c b (world p) = R) \/
  (pending p = [] /\ slots p !! f = Some R.1 /\ world p = R.2).

(** A loop of blocking [get()] calls over [futures], in order: each
    waits, while the workers move, until its slot is resolved. *)
Inductive get_each : pool A W -> list nat -> pool A W -> list (outcome A) -> Prop :=
  | get_each_nil p : get_each p [] p []
  | get_each_cons p p1 f o futures p' outs :
      steps lib p p1 ->
      get p1 f = Some o ->
      get_each p1 futures p' outs ->
      get_each p (f :: futures) p' (o :: outs).

End WithResult.

(** [future.get()] in the caller: it returns the value or throws the
    error that the slot holds. *)
Definition deliver {W A} (o : outcome A) : M W A := fun w => (o, w).

Section ParallelProcessing.
Variables sin cos : float -> float.
Context {W Level : Type} (lib : Lib W Level).

(** The lambda of [demo_parallel_processing]: it captures [input] and
    does not use it.  It is a task when its call of
    [expensive_computation] returns. *)
Definition processing_task (input : Z) : option (body float) :=
  (fun v => Done (Value v)) <$> returned (expensive_computation sin cos WORK_SIZE).

(** The two vectors [demo_parallel_processing] builds, on a pool of
    [hardware_concurrency] workers created in the world [w]:
    [seq_results] by the sequential loop, [par_results] by one [submit]
    per input followed by one [get()] per future, in order. *)
Definition demo_parallel_processing_results (w : W) (hardware_concurrency : nat)
    (seq_results par_results : list float) : Prop :=
  let inputs := seqZ 1 NUM_TASKS in
  mapM (fun input => returned (expensive_computation sin cos WORK_SIZE)) inputs
  = Some seq_results /\
  exists tasks p1 futures p2,
    mapM processing_task inputs = Some tasks /\
    submit_all lib (new_pool hardware_concurrency w) tasks p1 futures /\
    get_each lib p1 futures p2 (Value <$> par_results).
End ParallelProcessing.

Section Demos.
Context {W Level : Type} (lib : Lib W Level).

(** The outcomes of the callable of [demo_task_cancellation]: -1, 1000,
    or the exception of the line it logs when it sees the flag. *)
Definition cancelable_outcome (o : outcome Z) : Prop :=
  o = Value (-1) \/ o = Value 1000 \/
  exists e i (w w' : W),
    0 <= i < 1000 /\
    log_info lib "Task cancelled at iteration {}" [ArgInt i] w = (Error e, w') /\
    o = Error e.

(** [demo_exception_handling] run in the world [w] comes to [r].  The
    heading is logged; the task is submitted to a pool of four workers;
    [get()] delivers what the slot holds once it is resolved; the [try]
    block covers [get()] and the line that logs the result, in the
    world the workers have left; the pool is destroyed on the way
    out. *)
Definition demo_exception_handling (w : W) (r : outcome unit * W) : Prop :=
  match log_info lib "\n=== Demo 5: Exception Handling ===" [] w with
  | (Error e, w1) => r = (Error e, w1)
  | (Value _, w1) =>
      let submitted := submit (new_pool 4 w1) throwing_task in
      exists p2 delivered w',
        steps lib submitted.1 p2 /\
        get p2 submitted.2 = Some delivered /\
        let caught :=
          try_catch_std
            (result ← deliver delivered;
             log_info lib "Result: {}" [ArgInt result])
            (fun what => log_error lib "Caught exception: {}" [ArgStr what])
            (world p2) in
        destroy lib (set_world p2 caught.2) w' /\
        r = (caught.1, w')
  end.

(** [demo_task_cancellation] run in the world [w] comes to [r].  The
    workers move while the caller sleeps 150 ms, then [cancel()] sets
    the flag, the workers move again, the caller logs its line, and
    [get()] waits for the slot; the pool is destroyed on the way out,
    also when the caller's line throws. *)
Definition demo_task_cancellation (w : W) (r : outcome unit * W) : Prop :=
  match log_info lib "\n=== Demo 4: Task Cancellation ===" [] w with
  | (Error e, w1) => r = (Error e, w1)
  | (Value _, w1) =>
      let submitted := submit_cancelable (new_pool 4 w1) cancelable_task in
      exists p2 p3 w',
        steps lib submitted.1 p2 /\
        steps lib (cancel p2 submitted.2) p3 /\
        match log_info lib "Cancellation requested" [] (world p3) with
        | (Error e, w2) =>
            destroy lib (set_world p3 w2) w' /\ r = (Error e, w')
        | (Value _, w2) =>
            exists p4 delivered,
              steps lib (set_world p3 w2) p4 /\
              get p4 submitted.2 = Some delivered /\
              let logged :=
                (result ← deliver delivered;
                 log_info lib "Task result: {}" [ArgInt result]) (world p4) in
              destroy lib (set_world p4 logged.2) w' /\
              r = (logged.1, w')
        end
  end.

(** [demo_batch_processing] run in the world [w] comes to [r]: the
    vector 1, 2, ..., 1000 is squared by [parallel_map] on a pool of
    eight workers; [duration] is what the clock measured; the last line
    logs [results[0]] to [results[9]]. *)
Definition demo_batch_processing (w : W) (r : outcome unit * W) : Prop :=
  let data := seqZ 1 1000 in
  match log_info lib "\n=== Demo 3: Batch Processing ===" [] w with
  | (Error e, w1) => r = (Error e, w1)
  | (Value _, w1) =>
      exists p' results (duration : Z) w',
        parallel_map_returns lib (new_pool 8 w1) data (map_task square) p' results /\
        let logged :=
          (log_info lib "Processed {} elements in {} µs"
             [ArgInt (Z.of_nat (length data)); ArgInt duration] ;;
           log_info lib
             "First 10 results: [{}, {}, {}, {}, {}, {}, {}, {}, {}, {}]"
             ((fun i => ArgInt (ErrorHandlingMain.vec_at results i))
                <$> seqZ 0 10)) (world p') in
        destroy lib (set_world p' logged.2) w' /\
        r = (logged.1, w')
  end.
End Demos.

(** The demos of [main], in the order it calls them, run one after the
    other until one throws. *)
Fixpoint run_each {W} (demos : list (M W unit)) : M W unit :=
  match demos with
  | [] => ret tt
  | demo :: rest => demo ;; run_each rest
  end.

End ThreadPoolDemo.

(** ** thread_pool_demo.cpp: [demo_priority_scheduling] *)

Module PriorityDemo.
Import PriorityThreadPool.

(** Submissions one after the other with the workers free to move
    before, between and after them. *)
Inductive submit_interleaved {L} : pool L -> list (Priority * L) -> pool L -> Prop :=
  | submit_interleaved_nil p p' :
      steps p p' -> submit_interleaved p [] p'
  | submit_interleaved_cons p p1 x batch p' :
      steps p p1 ->
      submit_interleaved (submit_priority p1 x.1 x.2) batch p' ->
      submit_interleaved p (x :: batch) p'.

(** [demo_priority_scheduling]: four submissions to a pool of four
    workers; [wait_all()] returns once no worker can move.  [order] is
    the order in which the tasks started. *)
Definition demo_priority_scheduling (order : list string) : Prop :=
  exists p',
    submit_interleaved (new_pool 4) demo_submissions p' /\
    quiescent p' /\
    order = started p'.

End PriorityDemo.

(** ** Libraries that differ in one call *)

Module LibUpdate.
Import Process.

Definition with_log_warn {W Level} (lib : Lib W Level)
    (warn : string -> list arg -> M W unit) : Lib W Level :=
  {| Info := Info lib; log_init := log_init lib; log_info := log_info lib;
     log_warn := warn; log_error := log_error lib; cout := cout lib |}.

Definition with_log_error {W Level} (lib : Lib W Level)
    (error : string -> list arg -> M W unit) : Lib W Level :=
  {| Info := Info lib; log_init := log_init lib; log_info := log_info lib;
     log_warn := log_warn lib; log_error := error; cout := cout lib |}.

End LibUpdate.

(* ===================================================================== *)
(** * Part II: theorems                                                   *)
(* ===================================================================== *)

Module ErrorHandlingFacts.
Import Core ErrorHandling.

Example safe_divide_10_2 : safe_divide 10 2 = Ok 5%float.
Proof. reflexivity. Qed.

Example complex_calculation_16_4_0 :
  complex_calculation 16 4 0 = Ok 4%float.
Proof. reflexivity. Qed.

Example find_30 : find_element [10; 20; 30; 40; 50] 30 = some 2.
Proof. reflexivity. Qed.

Example find_99 : find_element [10; 20; 30; 40; 50] 99 = none.
Proof. reflexivity. Qed.

Example find_among_duplicates : find_element [5; 8; 5; 8; 8] 8 = some 1.
Proof. reflexivity. Qed.

Example find_in_empty : find_element [] 0 = none.
Proof. reflexivity. Qed.

(** The test [b == 0.0] also holds for negative zero, and fails for NaN. *)
Example safe_divide_negative_zero (a : float) :
  safe_divide a (-0)%float = Err "Division by zero".
Proof. reflexivity. Qed.

Example complex_calculation_zero_divisor :
  complex_calculation 1 0 5 = Err "Division by zero".
Proof. reflexivity. Qed.

Example complex_calculation_negative_root :
  complex_calculation (-16) 4 0
  = Err "Cannot take square root of negative number".
Proof. reflexivity. Qed.

(** NaN is neither [== 0.0] nor [< 0.0]: it passes both tests. *)
Example complex_calculation_nan : complex_calculation nan 1 0 = Ok nan.
Proof. reflexivity. Qed.

Example static_cast_int_wraps :
  static_cast_int 2147483647 = 2147483647 /\
  static_cast_int 2147483648 = -2147483648 /\
  static_cast_int 4294967296 = 0.
Proof. repeat split. Qed.

(** *** Floating-point facts used below *)

(** IEEE multiplication does not depend on the order of its operands. *)
Lemma SFmul_comm prec emax (x y : SpecFloat.spec_float) :
  SpecFloat.SFmul prec emax x y = SpecFloat.SFmul prec emax y x.
Proof.
  destruct x as [sx| sx| |sx mx ex], y as [sy| sy| |sy my ey]; simpl;
    try reflexivity; try (now rewrite xorb_comm).
  now rewrite xorb_comm, Pos.mul_comm, Z.add_comm.
Qed.

Lemma float_mul_comm (x y : float) : PrimFloat.mul x y = PrimFloat.mul y x.
Proof.
  rewrite <- (SF2Prim_Prim2SF (PrimFloat.mul x y)).
  rewrite <- (SF2Prim_Prim2SF (PrimFloat.mul y x)).
  rewrite !mul_spec. unfold SF64mul. now rewrite SFmul_comm.
Qed.

(** *** [find_element]: what the loop computes *)

Lemma find_loop_hit (vec : list Z) (target : Z) (k : nat) :
  vec !! k = Some target ->
  forall d i n : nat,
    (i + d = k)%nat -> (d < n)%nat ->
    (forall j, (i <= j < k)%nat -> vec !! j <> Some target) ->
    find_loop vec target n i = some (static_cast_int (Z.of_nat k)).
Proof.
  intros Hk. induction d as [|d IH]; intros i n Hi Hn Hbefore.
  - assert (i = k) by lia. subst i.
    destruct n as [|n]; [lia|]. simpl. rewrite Hk, Z.eqb_refl. reflexivity.
  - destruct n as [|n]; [lia|]. simpl.
    destruct (vec !! i) as [x|] eqn:Hx.
    + destruct (Z.eqb_spec x target) as [->|Hne].
      * exfalso. apply (Hbefore i); [lia | assumption].
      * apply IH; [lia | lia |]. intros j Hj. apply Hbefore. lia.
    + apply lookup_ge_None in Hx. apply lookup_lt_Some in Hk. lia.
Qed.

Lemma find_loop_miss (vec : list Z) (target : Z) :
  (forall j, vec !! j <> Some target) ->
  forall n i, find_loop vec target n i = none.
Proof.
  intros Habsent. induction n as [|n IH]; intros i; simpl; [reflexivity|].
  destruct (vec !! i) as [x|] eqn:Hx; [|reflexivity].
  destruct (Z.eqb_spec x target) as [->|Hne]; [|apply IH].
  exfalso. exact (Habsent i Hx).
Qed.

(** The loop returns the lowest matching index, pushed through the
    cast to [int]. *)
Lemma find_element_first (vec : list Z) (target : Z) (k : nat) :
  first_occurrence vec target k ->
  find_element vec target = some (static_cast_int (Z.of_nat k)).
Proof.
  intros [Hk Hmin]. unfold find_element.
  apply (find_loop_hit vec target k Hk k 0%nat); [lia | | ].
  - apply lookup_lt_Some in Hk. lia.
  - intros j Hj. apply Hmin. lia.
Qed.

Lemma find_element_absent (vec : list Z) (target : Z) :
  target ∉ vec -> find_element vec target = none.
Proof.
  intros Hnot. apply find_loop_miss. intros j Hj.
  apply Hnot. apply list_elem_of_lookup. eauto.
Qed.

(** A value that occurs somewhere has a lowest occurrence, at or before
    any given one. *)
Lemma first_occurrence_below (vec : list Z) (target : Z) (n : nat) :
  (forall j, (j < n)%nat -> vec !! j <> Some target) \/
  (exists k, (k < n)%nat /\ first_occurrence vec target k).
Proof.
  induction n as [|n [Hnone|(k & Hk & Hfirst)]].
  - left. intros j Hj. lia.
  - destruct (decide (vec !! n = Some target)) as [Hn|Hn].
    + right. exists n. split; [lia|]. split; assumption.
    + left. intros j Hj. destruct (decide (j = n)) as [->|]; [assumption|].
      apply Hnone. lia.
  - right. exists k. split; [lia | assumption].
Qed.

Lemma first_occurrence_exists (vec : list Z) (target : Z) (j : nat) :
  vec !! j = Some target ->
  exists k, (k <= j)%nat /\ first_occurrence vec target k.
Proof.
  intros Hj.
  destruct (first_occurrence_below vec target (S j)) as [Hnone|(k & Hk & Hf)].
  - exfalso. apply (Hnone j); [lia | assumption].
  - exists k. split; [lia | assumption].
Qed.

Lemma static_cast_int_small (i : Z) :
  0 <= i <= INT_MAX -> static_cast_int i = i.
Proof.
  unfold static_cast_int, INT_MAX. intros Hi.
  rewrite Z.mod_small; lia.
Qed.

(** Behind [n] zeros, a value other than zero has its first occurrence
    at index [n]. *)
Lemma first_occurrence_after_zeros (n : nat) (t : Z) (tail : list Z) :
  t <> 0 ->
  first_occurrence (replicate n 0 ++ t :: tail) t n.
Proof.
  intros Ht. split.
  - rewrite lookup_app_r by (rewrite length_replicate; lia).
    rewrite length_replicate, Nat.sub_diag. reflexivity.
  - intros j Hj. rewrite lookup_app_l by (rewrite length_replicate; lia).
    rewrite lookup_replicate_2 by lia. congruence.
Qed.

(** Index 2^31 does not fit in [int]: the cast yields [INT_MIN]. *)
Lemma find_element_index_overflow (n : nat) (tail : list Z) :
  Z.of_nat n = 2147483648 ->
  find_element (replicate n 0 ++ 1 :: tail) 1 = some (-2147483648).
Proof.
  intros Hn.
  rewrite (find_element_first _ 1 n) by (apply first_occurrence_after_zeros; lia).
  rewrite Hn. reflexivity.
Qed.

(** *** The claims about [error_handling.cpp] *)

(** C2.  For every double [a], [safe_divide(a, 0.0)] is the error
    "Division by zero", and chaining a continuation on it with
    [and_then] short-circuits: the result is still that error and the
    continuation is not invoked, whatever it is.  That it is not
    invoked is stated on continuations with side effects: the state
    they could have changed comes out as it went in, and a call
    counter wrapped around the continuation does not move. *)
Theorem safe_divide_by_zero_short_circuits (a : float) :
  safe_divide a 0 = Err "Division by zero" /\
  (forall (U : Type) (f : float -> Result U string),
      and_then (safe_divide a 0) f = Err "Division by zero") /\
  (forall (U S : Type) (f : float -> S -> Result U string * S) (s : S),
      and_then_st (safe_divide a 0) f s = (Err "Division by zero", s)) /\
  (forall (U : Type) (f : float -> Result U string) (calls : nat),
      and_then_st (safe_divide a 0) (counting f) calls
      = (Err "Division by zero", calls)).
Proof.
  assert (Hdiv : safe_divide a 0 = Err "Division by zero") by reflexivity.
  split; [exact Hdiv|].
  split; [intros U f; rewrite Hdiv; reflexivity|].
  split; [intros U S f s | intros U f calls]; rewrite Hdiv; reflexivity.
Qed.

(** C3.  For all functions [f] and [g], [safe_divide(10, 2).map(f).map(g)]
    is an [Ok] that holds [g(f(5))]; and mapping twice over any [Ok]
    applies the two functions in the order they were chained. *)
Theorem map_map_composes (U V : Type) (f : float -> U) (g : U -> V) :
  map (map (safe_divide 10 2) f) g = Ok (E := string) (g (f 5%float)) /\
  (forall v : float,
      map (map (Ok (E := string) v) f) g = Ok (g (f v))).
Proof. split; [reflexivity | intros v; reflexivity]. Qed.

(** C10.  [complex_calculation(a, b, c)] is the error "Division by
    zero" when [b == 0.0], otherwise the error "Cannot take square root
    of negative number" when [a / b + c < 0.0], and otherwise
    [Ok(2.0 * sqrt(a / b + c))]; so it is an error exactly when one of
    the two comparisons holds. *)
Theorem complex_calculation_spec (a b c : float) :
  complex_calculation a b c =
    (if PrimFloat.eqb b 0
     then Err "Division by zero"
     else if PrimFloat.ltb (PrimFloat.add (PrimFloat.div a b) c) 0
          then Err "Cannot take square root of negative number"
          else Ok (PrimFloat.mul 2
                     (PrimFloat.sqrt (PrimFloat.add (PrimFloat.div a b) c))))
  /\
  is_err (complex_calculation a b c) =
    PrimFloat.eqb b 0 || PrimFloat.ltb (PrimFloat.add (PrimFloat.div a b) c) 0.
Proof.
  unfold complex_calculation, safe_divide.
  destruct (PrimFloat.eqb b 0); simpl; [split; reflexivity|].
  unfold safe_sqrt.
  destruct (PrimFloat.ltb (PrimFloat.add (PrimFloat.div a b) c) 0); simpl;
    [split; reflexivity|].
  rewrite (float_mul_comm 2). split; reflexivity.
Qed.

(** C4, as the code has it.  If [target] occurs in [vec] at an index
    that an [int] can hold (at most [INT_MAX]), [find_element] returns
    an index [i] with [vec[i] == target]; if [target] does not occur,
    it returns [none], and [value_or(default)] on that gives
    [default]. *)
Theorem find_element_round_trip (vec : list Z) (target : Z) :
  ((exists j : nat, Z.of_nat j <= INT_MAX /\ vec !! j = Some target) ->
   exists i : Z,
     find_element vec target = some i /\
     0 <= i /\ vec !! Z.to_nat i = Some target)
  /\
  (target ∉ vec ->
   find_element vec target = none /\
   forall default : Z, opt_value_or (find_element vec target) default = default).
Proof.
  split.
  - intros (j & Hj & Hat).
    destruct (first_occurrence_exists vec target j Hat) as (k & Hk & Hfirst).
    exists (Z.of_nat k).
    rewrite (find_element_first vec target k Hfirst).
    rewrite static_cast_int_small by lia.
    rewrite Nat2Z.id. destruct Hfirst as [Hat_k _].
    split; [reflexivity|]. split; [lia | exact Hat_k].
  - intros Habsent. rewrite (find_element_absent vec target Habsent).
    split; [reflexivity | intros default; reflexivity].
Qed.

Lemma find_element_round_trip_witness :
  (exists i : Z,
      find_element [10; 20; 30; 40; 50] 30 = some i /\
      0 <= i /\ [10; 20; 30; 40; 50] !! Z.to_nat i = Some 30) /\
  (find_element [10; 20; 30; 40; 50] 99 = none /\
   forall default : Z,
     opt_value_or (find_element [10; 20; 30; 40; 50] 99) default = default).
Proof.
  split.
  - apply (proj1 (find_element_round_trip [10; 20; 30; 40; 50] 30)).
    exists 2%nat. split; [unfold INT_MAX; lia | reflexivity].
  - apply (proj2 (find_element_round_trip [10; 20; 30; 40; 50] 99)).
    intros Hin. repeat (apply elem_of_cons in Hin as [Hin|Hin]; [lia|]).
    inversion Hin.
Defined.

(** C4 as stated fails on a vector longer than [INT_MAX]: with 2^31
    zeros before the only 1, the index found is 2^31, the cast turns
    it into -2^31, and that is not an index of the vector. *)
Lemma find_element_round_trip_fails_past_INT_MAX :
  let vec := replicate (Z.to_nat 2147483648) 0 ++ [1] in
  1 ∈ vec /\
  find_element vec 1 = some (-2147483648) /\
  ~ (exists i : Z,
        find_element vec 1 = some i /\
        0 <= i /\ vec !! Z.to_nat i = Some 1).
Proof.
  intros vec. subst vec.
  assert (Hn : Z.of_nat (Z.to_nat 2147483648) = 2147483648)
    by (apply Z2Nat.id; lia).
  revert Hn. generalize (Z.to_nat 2147483648). intros n Hn.
  pose proof (find_element_index_overflow n [] Hn) as Hfound.
  split; [|split].
  - apply elem_of_app. right. apply list_elem_of_singleton. reflexivity.
  - exact Hfound.
  - intros (i & Hi & Hpos & _). rewrite Hfound in Hi.
    injection Hi as <-. lia.
Qed.

(** C9, as the code has it.  When [target] occurs in [vec], once or
    several times, and its first (lowest-index) occurrence is at an
    index that an [int] can hold, [find_element] returns that index:
    the scan goes up from 0 and returns at the first match. *)
Theorem find_element_returns_first (vec : list Z) (target : Z) (k : nat) :
  first_occurrence vec target k ->
  Z.of_nat k <= INT_MAX ->
  find_element vec target = some (Z.of_nat k).
Proof.
  intros Hfirst Hk. rewrite (find_element_first vec target k Hfirst).
  rewrite static_cast_int_small by lia. reflexivity.
Qed.

Lemma find_element_returns_first_witness :
  find_element [7; 3; 7; 3; 3] 3 = some 1.
Proof.
  apply (find_element_returns_first [7; 3; 7; 3; 3] 3 1).
  - split; [reflexivity|].
    intros j Hj. destruct j as [|j]; [discriminate | lia].
  - unfold INT_MAX. lia.
Defined.

(** C9 as stated fails when the first of several occurrences sits at
    index 2^31: the value returned is -2^31, not that index. *)
Lemma find_element_first_fails_past_INT_MAX :
  let n := Z.to_nat 2147483648 in
  let vec := replicate n 0 ++ [1; 1] in
  first_occurrence vec 1 n /\
  vec !! S n = Some 1 /\
  find_element vec 1 = some (-2147483648) /\
  find_element vec 1 <> some (Z.of_nat n).
Proof.
  intros n vec. subst vec.
  assert (Hn : Z.of_nat n = 2147483648) by (apply Z2Nat.id; lia).
  clearbody n.
  pose proof (find_element_index_overflow n [1] Hn) as Hfound.
  split; [|split; [|split]].
  - apply first_occurrence_after_zeros. lia.
  - rewrite lookup_app_r by (rewrite length_replicate; lia).
    rewrite length_replicate.
    replace (S n - n)%nat with 1%nat by lia. reflexivity.
  - exact Hfound.
  - rewrite Hfound, Hn. discriminate.
Qed.

End ErrorHandlingFacts.

Module ProcessFacts.
Import Process.

Section Returns.
Context {W : Type}.

Lemma returns_only_ret (c : Z) : returns_only (W := W) c (ret c).
Proof. intros w c' w' [= <- _]. reflexivity. Qed.

Lemma returns_only_bind {A} (c : Z) (m : M W A) (k : A -> M W Z) :
  (forall a, returns_only c (k a)) -> returns_only c (bind m k).
Proof.
  intros Hk w c' w'. unfold bind.
  destruct (m w) as [[a|e] w1]; [apply Hk | discriminate].
Qed.

Lemma run_main_value (main : M W Z) (w w' : W) (c : Z) :
  main w = (Value c, w') -> run_main main w = (Exited c, w').
Proof. unfold run_main. intros ->. reflexivity. Qed.

Lemma run_main_error (main : M W Z) (w w' : W) (e : exn) :
  main w = (Error e, w') -> run_main main w = (Terminated, w').
Proof. unfold run_main. intros ->. reflexivity. Qed.

(** A [main] without a handler never makes up a code for an
    exception: the process exits with what [main] returned or is
    terminated. *)
Lemma run_main_returns_only (c : Z) (main : M W Z) (w : W) :
  returns_only c main ->
  (run_main main w).1 = Exited c \/ (run_main main w).1 = Terminated.
Proof.
  intros Hret. unfold run_main.
  destruct (main w) as [[c'|e] w'] eqn:Hmain; [left | right; reflexivity].
  rewrite (Hret w c' w' Hmain). reflexivity.
Qed.
End Returns.

Ltac returns_only_spine :=
  cbv zeta; unfold mbind, M_bind;
  repeat (apply returns_only_bind; intros ?);
  apply returns_only_ret.

Lemma hello_world_returns_0 {W Level} (lib : Lib W Level) (vmaj vmin vpat : Z) :
  returns_only 0 (HelloWorld.main lib vmaj vmin vpat).
Proof. unfold HelloWorld.main. returns_only_spine. Qed.

Lemma error_handling_returns_0 {W Level} (lib : Lib W Level) :
  returns_only 0 (ErrorHandlingMain.main lib).
Proof. unfold ErrorHandlingMain.main. returns_only_spine. Qed.

Section ThreadPoolMain.
Context {W Level : Type} (lib : Lib W Level) (hc : Z).
Context (d1 d2 d3 d4 d5 d6 : M W unit).

Let tp_prelude := ThreadPoolDemoMain.prelude lib hc.
Let tp_demos := ThreadPoolDemoMain.run_demos lib d1 d2 d3 d4 d5 d6.
Let tp_main := ThreadPoolDemoMain.main lib hc d1 d2 d3 d4 d5 d6.

Lemma thread_pool_main_success (w w1 w2 : W) :
  tp_prelude w = (Value tt, w1) ->
  tp_demos w1 = (Value tt, w2) ->
  tp_main w = (Value 0, w2).
Proof.
  intros Hpre Hdemos.
  unfold tp_main, ThreadPoolDemoMain.main, mbind, M_bind, bind,
    try_catch_std.
  fold tp_prelude tp_demos. rewrite Hpre.
  unfold mbind, M_bind, bind. rewrite Hdemos. reflexivity.
Qed.

Lemma thread_pool_main_caught (what : string) (w w1 w2 w3 : W) :
  tp_prelude w = (Value tt, w1) ->
  tp_demos w1 = (Error (StdException what), w2) ->
  log_error lib "Fatal error: {}" [ArgStr what] w2 = (Value tt, w3) ->
  tp_main w = (Value 1, w3).
Proof.
  intros Hpre Hdemos Hlog.
  unfold tp_main, ThreadPoolDemoMain.main, mbind, M_bind, bind,
    try_catch_std.
  fold tp_prelude tp_demos. rewrite Hpre.
  unfold mbind, M_bind, bind. rewrite Hdemos, Hlog. reflexivity.
Qed.

(** What is not a [std::exception] passes the handler. *)
Lemma thread_pool_main_foreign (w w1 w2 : W) :
  tp_prelude w = (Value tt, w1) ->
  tp_demos w1 = (Error ForeignThrow, w2) ->
  tp_main w = (Error ForeignThrow, w2).
Proof.
  intros Hpre Hdemos.
  unfold tp_main, ThreadPoolDemoMain.main, mbind, M_bind, bind,
    try_catch_std.
  fold tp_prelude tp_demos. rewrite Hpre.
  unfold mbind, M_bind, bind. rewrite Hdemos. reflexivity.
Qed.
End ThreadPoolMain.

(** C8, as the code has it.  Each of the three [main] functions exits
    with code 0 when it runs to its end.  [main] of
    [thread_pool_demo.cpp] exits with code 1 when a [std::exception]
    leaves one of the calls inside its [try] block and the handler's
    [log::error] completes.  [main] of [hello_world.cpp] and of
    [error_handling.cpp] have no handler: they never exit with code 1,
    and an exception that leaves them ends the process by
    [std::terminate]. *)
Theorem main_exit_codes {W Level : Type} (lib : Lib W Level)
    (vmaj vmin vpat hc : Z) (d1 d2 d3 d4 d5 d6 : M W unit) (w : W) :
  let hello := HelloWorld.main lib vmaj vmin vpat in
  let errors := ErrorHandlingMain.main lib in
  let pool := ThreadPoolDemoMain.main lib hc d1 d2 d3 d4 d5 d6 in
  let prelude := ThreadPoolDemoMain.prelude lib hc in
  let run_demos := ThreadPoolDemoMain.run_demos lib d1 d2 d3 d4 d5 d6 in
  (* running to the end: 0 *)
  (forall c w', hello w = (Value c, w') -> run_main hello w = (Exited 0, w')) /\
  (forall c w', errors w = (Value c, w') -> run_main errors w = (Exited 0, w')) /\
  (forall w1 w2,
      prelude w = (Value tt, w1) -> run_demos w1 = (Value tt, w2) ->
      run_main pool w = (Exited 0, w2)) /\
  (* a std::exception out of the try block: 1 *)
  (forall what w1 w2 w3,
      prelude w = (Value tt, w1) ->
      run_demos w1 = (Error (StdException what), w2) ->
      log_error lib "Fatal error: {}" [ArgStr what] w2 = (Value tt, w3) ->
      run_main pool w = (Exited 1, w3)) /\
  (* no handler in the two basic examples *)
  (forall e w', hello w = (Error e, w') -> run_main hello w = (Terminated, w')) /\
  (forall e w', errors w = (Error e, w') -> run_main errors w = (Terminated, w')) /\
  (run_main hello w).1 <> Exited 1 /\
  (run_main errors w).1 <> Exited 1.
Proof.
  intros hello errors pool prelude run_demos.
  repeat split.
  - intros c w' Hrun.
    rewrite (hello_world_returns_0 lib vmaj vmin vpat w c w' Hrun) in Hrun.
    apply run_main_value, Hrun.
  - intros c w' Hrun.
    rewrite (error_handling_returns_0 lib w c w' Hrun) in Hrun.
    apply run_main_value, Hrun.
  - intros w1 w2 Hpre Hdemos. apply run_main_value.
    apply (thread_pool_main_success lib hc d1 d2 d3 d4 d5 d6 w w1 w2); assumption.
  - intros what w1 w2 w3 Hpre Hdemos Hlog. apply run_main_value.
    apply (thread_pool_main_caught lib hc d1 d2 d3 d4 d5 d6 what w w1 w2 w3);
      assumption.
  - intros e w'. apply run_main_error.
  - intros e w'. apply run_main_error.
  - destruct (run_main_returns_only 0 hello w
                (hello_world_returns_0 lib vmaj vmin vpat)) as [-> | ->];
      discriminate.
  - destruct (run_main_returns_only 0 errors w
                (error_handling_returns_0 lib)) as [-> | ->];
      discriminate.
Qed.

(** The theorem at work: with a library that never fails, the thread
    pool's [main] exits with 0 when its demos return and with 1 when
    the fifth lets a [std::exception] escape. *)
Lemma main_exit_codes_witness :
  (run_main (ThreadPoolDemoMain.main Worlds.quiet_lib 8
               (ret tt) (ret tt) (ret tt) (ret tt) (ret tt) (ret tt)) []).1
    = Exited 0 /\
  (run_main (ThreadPoolDemoMain.main Worlds.quiet_lib 8
               (ret tt) (ret tt) (ret tt) (ret tt) Worlds.failing_demo (ret tt)) []).1
    = Exited 1.
Proof.
  split.
  - pose proof (main_exit_codes Worlds.quiet_lib 0 1 0 8
                  (ret tt) (ret tt) (ret tt) (ret tt) (ret tt) (ret tt) [])
      as (_ & _ & Hok & _).
    erewrite Hok; reflexivity.
  - pose proof (main_exit_codes Worlds.quiet_lib 0 1 0 8
                  (ret tt) (ret tt) (ret tt) (ret tt) Worlds.failing_demo (ret tt) [])
      as (_ & _ & _ & Hcaught & _).
    erewrite Hcaught; reflexivity.
Defined.

(** C8 as stated fails for [hello_world.cpp]: when [log::info] throws a
    [std::exception], it leaves [main], which has no handler, and the
    process is terminated instead of exiting with code 1. *)
Lemma hello_world_uncaught_is_not_exit_1 :
  HelloWorld.main Worlds.failing_log_lib 1 0 0 []
    = (Error (StdException "log sink unavailable"), []) /\
  run_main (HelloWorld.main Worlds.failing_log_lib 1 0 0) []
    = (Terminated, []) /\
  (run_main (HelloWorld.main Worlds.failing_log_lib 1 0 0) []).1 <> Exited 1.
Proof. split; [reflexivity | split; [reflexivity | discriminate]]. Qed.

Example error_handling_uncaught_is_not_exit_1 :
  run_main (ErrorHandlingMain.main Worlds.failing_log_lib) []
    = (Terminated, []).
Proof. reflexivity. Qed.

Example error_handling_quiet_run :
  (run_main (ErrorHandlingMain.main Worlds.quiet_lib) []).1 = Exited 0.
Proof. reflexivity. Qed.

End ProcessFacts.

Module ThreadPoolFacts.
Import ThreadPool Process.

Section WithResult.
Context {A W Level : Type} (lib : Lib W Level).
Implicit Types (p : pool A W) (t : task A) (b : body A) (ws : list (worker A)).
Local Open Scope nat_scope.

(** *** The moves of a body *)

Lemma body_step_depth c b (w : W) b' w' :
  body_step lib c b w = inl (b', w') -> depth b' < depth b.
Proof.
  destruct b as [o|k|ms k|fmt args k]; simpl; intros Hstep.
  - discriminate.
  - injection Hstep as <- <-. destruct c; lia.
  - injection Hstep as <- <-. lia.
  - destruct (log_info lib fmt args w) as [[u|e] w1];
      injection Hstep as <- <-; simpl; lia.
Qed.

Lemma body_step_outcomes c b (w : W) b' w' (o : outcome A) :
  body_step lib c b w = inl (b', w') -> outcomes lib c b' o -> outcomes lib c b o.
Proof.
  destruct b as [o0|k|ms k|fmt args k]; simpl; intros Hstep Hout.
  - discriminate.
  - injection Hstep as <- <-. constructor. exact Hout.
  - injection Hstep as <- <-. constructor. exact Hout.
  - destruct (log_info lib fmt args w) as [[[]|e] w1] eqn:Hlog;
      injection Hstep as <- <-.
    + eapply outcomes_logged; eauto.
    + inversion Hout; subst. eapply outcomes_log_throws; eauto.
Qed.

Lemma body_step_done c b (w : W) (o : outcome A) :
  body_step lib c b w = inr o -> b = Done o.
Proof.
  destruct b as [o0|k|ms k|fmt args k]; simpl; intros Hstep; try discriminate.
  - congruence.
  - destruct (log_info lib fmt args w) as [[u|e] w1]; discriminate.
Qed.

Lemma outcomes_Done c (o o' : outcome A) : outcomes lib c (Done o) o' -> o' = o.
Proof. inversion 1. reflexivity. Qed.

(** A run of the body in a world ends with one of its outcomes. *)
Lemma run_body_outcomes c b (w : W) :
  outcomes lib c b (run_body lib c b w).1.
Proof.
  revert w. induction b as [o|k IH|ms k IH|fmt args k IH]; intros w; simpl.
  - constructor.
  - constructor. apply IH.
  - constructor. apply IH.
  - destruct (log_info lib fmt args w) as [[[]|e] w1] eqn:Hlog.
    + eapply outcomes_logged; eauto.
    + eapply outcomes_log_throws; eauto.
Qed.

(** A move of the body does not change what its run comes to. *)
Lemma run_body_step c b (w : W) b' w' :
  body_step lib c b w = inl (b', w') -> run_body lib c b' w' = run_body lib c b w.
Proof.
  destruct b as [o0|k|ms k|fmt args k]; simpl; intros Hstep.
  - discriminate.
  - injection Hstep as <- <-. reflexivity.
  - injection Hstep as <- <-. reflexivity.
  - destruct (log_info lib fmt args w) as [[u|e] w1];
      injection Hstep as <- <-; reflexivity.
Qed.

(** *** The tasks on the workers *)

Lemma running_app ws1 ws2 : running (ws1 ++ ws2) = running ws1 ++ running ws2.
Proof. apply omap_app. Qed.

Lemma running_cons (w : worker A) ws : running (w :: ws) = on_worker w ++ running ws.
Proof. destruct w; reflexivity. Qed.

(** Replacing the worker at [i] replaces its task and leaves the tasks
    of the others. *)
Lemma running_insert ws i (w : worker A) :
  ws !! i = Some w ->
  exists others,
    running ws ≡ₚ on_worker w ++ others /\
    forall w', running (<[i := w']> ws) ≡ₚ on_worker w' ++ others.
Proof.
  intros Hi.
  exists (running (take i ws) ++ running (drop (S i) ws)). split.
  - rewrite <- (take_drop_middle ws i w Hi) at 1.
    rewrite running_app, running_cons.
    rewrite (assoc_L (++)), (comm (++) (running (take i ws)) (on_worker w)).
    rewrite <- (assoc_L (++)). reflexivity.
  - intros w'. rewrite insert_take_drop by (eapply lookup_lt_Some; eauto).
    rewrite running_app, running_cons.
    rewrite (assoc_L (++)), (comm (++) (running (take i ws)) (on_worker w')).
    rewrite <- (assoc_L (++)). reflexivity.
Qed.

Lemma running_replicate_idle n : running (replicate n (@Idle A)) = [].
Proof. induction n as [|n IH]; [reflexivity | exact IH]. Qed.

Lemma running_all_idle ws : Forall (fun w => w = Idle) ws -> running ws = [].
Proof. induction 1 as [|w l -> _ IH]; [reflexivity | exact IH]. Qed.

Lemma running_lookup ws i t : ws !! i = Some (Running t) -> t ∈ running ws.
Proof.
  intros Hi. destruct (running_insert ws i _ Hi) as (others & Hold & _).
  rewrite Hold. left.
Qed.

(** *** What a step does *)

Lemma step_frame p p' :
  step lib p p' ->
  length (workers p') = length (workers p) /\
  cancel_flags p' = cancel_flags p /\
  next_id p' = next_id p.
Proof.
  intros [i Hstep]. unfold worker_step in Hstep.
  destruct (workers p !! i) as [[|[id b]]|] eqn:Hw; [| |discriminate].
  - destruct (queue p) as [|t rest]; [discriminate|].
    injection Hstep as <-; simpl; rewrite length_insert; auto.
  - destruct (body_step lib _ b (world p)) as [[b' w']|o];
      injection Hstep as <-; simpl; rewrite length_insert; auto.
Qed.

Lemma step_cases p p' : step lib p p' -> step_kind lib p p'.
Proof.
  intros [i Hstep]. unfold worker_step in Hstep.
  destruct (workers p !! i) as [w|] eqn:Hw; [|discriminate].
  destruct (running_insert (workers p) i w Hw) as (others & Hold & Hnew).
  destruct w as [|[id b]].
  - destruct (queue p) as [|t rest] eqn:Hq; [discriminate|].
    injection Hstep as <-. apply kind_claim; simpl.
    + unfold pending. simpl. rewrite Hq, Hnew, Hold. simpl.
      symmetry. apply Permutation_middle.
    + rewrite Hq. simpl. lia.
    + reflexivity.
    + reflexivity.
  - destruct (body_step lib (bool_decide (id ∈ cancel_flags p)) b (world p))
      as [[b' w']|o] eqn:Hbody; injection Hstep as <-.
    + apply (kind_advance lib _ _ id b b' (queue p ++ others));
        simpl; try reflexivity.
      * unfold pending. rewrite Hold. simpl. symmetry. apply Permutation_middle.
      * unfold pending. simpl. rewrite Hnew. simpl. symmetry.
        apply Permutation_middle.
      * exact Hbody.
    + apply body_step_done in Hbody as ->.
      apply (kind_finish lib _ _ id o); simpl; [|reflexivity..].
      unfold pending. simpl. rewrite Hnew, Hold. simpl.
      symmetry. apply Permutation_middle.
Qed.

(** *** Well-formedness is kept *)

Lemma wf_new_pool n (w : W) : wf (new_pool (A := A) n w).
Proof.
  unfold wf, new_pool, pending. simpl. rewrite running_replicate_idle. simpl.
  split; [constructor|]. split; [|split].
  - intros t Ht. inversion Ht.
  - intros id [o Ho]. rewrite lookup_empty in Ho. discriminate.
  - intros id Hid. apply elem_of_empty in Hid. destruct Hid.
Qed.

Lemma pending_submit p b :
  pending (submit p b).1 ≡ₚ Task (next_id p) b :: pending p.
Proof.
  unfold pending, submit. simpl.
  rewrite <- (assoc_L (++)). simpl. symmetry. apply Permutation_middle.
Qed.

Lemma wf_submit p b : wf p -> wf (submit p b).1.
Proof.
  intros (Hnd & Hpend & Hslots & Hflags).
  pose proof (pending_submit p b) as Hperm.
  split; [|split; [|split]].
  - rewrite Hperm. simpl. constructor; [|exact Hnd].
    intros Hin. apply list_elem_of_fmap in Hin as (t & Hid & Ht).
    destruct (Hpend t Ht) as [Hlt _]. lia.
  - intros t Ht. rewrite Hperm in Ht. simpl.
    apply elem_of_cons in Ht as [->|Ht]; simpl.
    + split; [lia|]. destruct (slots p !! next_id p) eqn:Hs; [|reflexivity].
      assert (next_id p < next_id p) by (apply Hslots; eauto). lia.
    + destruct (Hpend t Ht) as [Hlt Hnone]. split; [lia | exact Hnone].
  - intros id Hid. simpl in *. specialize (Hslots id Hid). lia.
  - intros id Hid. simpl in *. specialize (Hflags id Hid). lia.
Qed.

Lemma wf_cancel p h : (h < next_id p) -> wf p -> wf (cancel p h).
Proof.
  intros Hh (Hnd & Hpend & Hslots & Hflags).
  split; [exact Hnd|]. split; [exact Hpend|]. split; [exact Hslots|].
  intros id Hid. simpl in Hid. apply elem_of_union in Hid as [Hid|Hid].
  - apply elem_of_singleton in Hid as ->. exact Hh.
  - apply Hflags, Hid.
Qed.

Lemma wf_set_world p (w : W) : wf p -> wf (set_world p w).
Proof. intros H. exact H. Qed.

Lemma wf_step p p' : wf p -> step lib p p' -> wf p'.
Proof.
  intros (Hnd & Hpend & Hslots & Hflags) Hstep.
  destruct (step_frame p p' Hstep) as (_ & Hfl & Hnext).
  unfold wf. rewrite Hfl, Hnext.
  destruct (step_cases p p' Hstep)
    as [Hperm Hq Hs Hw | id b b' others Hp Hp' Hq Hs Hbody | id o Hp Hq Hs Hw].
  - rewrite Hs. split; [rewrite Hperm; exact Hnd|].
    split; [|split; assumption].
    intros t Ht. rewrite Hperm in Ht. apply Hpend, Ht.
  - rewrite Hs. split; [|split; [|split; assumption]].
    + rewrite Hp'. rewrite Hp in Hnd. exact Hnd.
    + intros t Ht. rewrite Hp' in Ht.
      apply elem_of_cons in Ht as [->|Ht].
      * apply (Hpend (Task id b)). rewrite Hp. left.
      * apply Hpend. rewrite Hp. right. exact Ht.
  - rewrite Hp in Hnd. simpl in Hnd. apply NoDup_cons in Hnd as [Hfresh Hnd].
    assert (Hid : id < next_id p /\ slots p !! id = None).
    { apply (Hpend (Task id (Done o))). rewrite Hp. left. }
    rewrite Hs. split; [exact Hnd|]. split; [|split; [|assumption]].
    + intros t Ht.
      destruct (Hpend t) as [Hlt Hnone]; [rewrite Hp; right; exact Ht|].
      split; [exact Hlt|]. rewrite lookup_insert_ne; [exact Hnone|].
      intros ->. apply Hfresh. apply list_elem_of_fmap. eauto.
    + intros x Hx. destruct (decide (x = id)) as [->|Hne]; [apply Hid|].
      rewrite lookup_insert_ne in Hx by congruence. apply Hslots, Hx.
Qed.

Lemma wf_steps p p' : wf p -> steps lib p p' -> wf p'.
Proof. intros Hwf Hsteps. induction Hsteps; eauto using wf_step. Qed.

Lemma steps_frame p p' :
  steps lib p p' ->
  length (workers p') = length (workers p) /\
  cancel_flags p' = cancel_flags p /\
  next_id p' = next_id p.
Proof.
  induction 1 as [|p p1 p' Hstep _ (IHw & IHf & IHn)]; [auto|].
  destruct (step_frame p p1 Hstep) as (Hw & Hf & Hn).
  rewrite IHw, IHf, IHn. auto.
Qed.

(** *** What a future is bound to *)

Lemma tracks_step f (S : outcome A -> Prop) p p' :
  wf p -> step lib p p' -> tracks lib f S p -> tracks lib f S p'.
Proof.
  intros (Hnd & Hpend & _) Hstep Htr.
  destruct (step_frame p p' Hstep) as (_ & Hfl & _).
  assert (Hflag : flag p' f = flag p f) by (unfold flag; rewrite Hfl; reflexivity).
  unfold tracks. rewrite Hflag.
  destruct (step_cases p p' Hstep)
    as [Hperm Hq Hs Hw | id b b' others Hp Hp' Hq Hs Hbody | id o' Hp Hq Hs Hw].
  - rewrite Hs. destruct Htr as [(b & Hin & Hev)|Hres]; [left|right; exact Hres].
    exists b. rewrite Hperm. auto.
  - rewrite Hs. destruct Htr as [(b0 & Hin & Hev0)|Hres]; [left|right; exact Hres].
    rewrite Hp in Hin. apply elem_of_cons in Hin as [Heq|Hothers].
    + injection Heq as -> ->. exists b'. rewrite Hp'. split; [left|].
      intros o Hout. apply Hev0. eapply body_step_outcomes; eauto.
    + exists b0. rewrite Hp'. split; [right; exact Hothers | exact Hev0].
  - rewrite Hs. destruct Htr as [(b0 & Hin & Hev0)|(o & Hres & HS)].
    + rewrite Hp in Hin. apply elem_of_cons in Hin as [Heq|Hothers].
      * injection Heq as -> ->. right. exists o'.
        split; [apply lookup_insert_eq | apply Hev0; constructor].
      * left. exists b0. auto.
    + right. exists o. split; [|exact HS].
      destruct (decide (f = id)) as [->|Hne].
      * destruct (Hpend (Task id (Done o'))) as [_ Hnone]; [rewrite Hp; left|].
        simpl in Hnone. congruence.
      * rewrite lookup_insert_ne by congruence. exact Hres.
Qed.

Lemma tracks_steps f (S : outcome A -> Prop) p p' :
  wf p -> steps lib p p' -> tracks lib f S p -> tracks lib f S p'.
Proof.
  intros Hwf Hsteps. induction Hsteps as [|p p1 p' Hstep _ IH]; [auto|].
  intros Htr. apply IH; eauto using wf_step, tracks_step.
Qed.

Lemma tracks_weaken f (S S' : outcome A -> Prop) p :
  (forall o, S o -> S' o) -> tracks lib f S p -> tracks lib f S' p.
Proof.
  intros HS [(b & Hin & Hev)|(o & Hres & Ho)]; [left|right]; eauto.
Qed.

(** A fresh task is bound to the outcomes of its body when no
    cancellation is seen: its flag is not set. *)
Lemma tracks_submit_fresh p b :
  wf p -> tracks lib (submit p b).2 (outcomes lib false b) (submit p b).1.
Proof.
  intros (_ & _ & _ & Hflags). left. exists b. split.
  - rewrite pending_submit. left.
  - unfold flag. simpl. rewrite bool_decide_eq_false_2; [auto|].
    intros Hin. specialize (Hflags _ Hin). lia.
Qed.

Lemma tracks_submit_other f (S : outcome A -> Prop) p b :
  tracks lib f S p -> tracks lib f S (submit p b).1.
Proof.
  intros [(b0 & Hin & Hev)|Hres]; [left|right; exact Hres].
  exists b0. split; [rewrite pending_submit; right; exact Hin | exact Hev].
Qed.


Lemma tracks_cancel_other f (S : outcome A -> Prop) p h :
  f <> h -> tracks lib f S p -> tracks lib f S (cancel p h).
Proof.
  intros Hne [(b0 & Hin & Hev)|Hres]; [left|right; exact Hres].
  exists b0. split; [exact Hin|].
  assert (Hflag : flag (cancel p h) f = flag p f).
  { unfold flag. simpl. apply bool_decide_ext.
    rewrite elem_of_union, elem_of_singleton. intuition congruence. }
  rewrite Hflag. exact Hev.
Qed.

(** A resolved slot holds one of the outcomes the future was bound to. *)
Lemma tracks_get f (S : outcome A -> Prop) (o : outcome A) p :
  wf p -> tracks lib f S p -> get p f = Some o -> S o.
Proof.
  intros (_ & Hpend & _) [(b & Hin & _)|(o' & Hres & HS)] Hget; unfold get in Hget.
  - destruct (Hpend _ Hin) as [_ Hnone]. simpl in Hnone. congruence.
  - congruence.
Qed.

(** *** Every run ends, with every task finished *)

Lemma weight_perm (ts ts' : list (task A)) : ts ≡ₚ ts' -> weight ts = weight ts'.
Proof. intros Hperm. unfold weight. rewrite Hperm. reflexivity. Qed.

Lemma measure_step p p' : step lib p p' -> measure p' < measure p.
Proof.
  intros Hstep. unfold measure.
  destruct (step_cases p p' Hstep)
    as [Hperm Hq Hs Hw | id b b' others Hp Hp' Hq Hs Hbody | id o Hp Hq Hs Hw].
  - rewrite (weight_perm _ _ Hperm). lia.
  - rewrite Hq, (weight_perm _ _ Hp), (weight_perm _ _ Hp').
    pose proof (body_step_depth _ _ _ _ _ Hbody).
    unfold weight. simpl. lia.
  - rewrite Hq, (weight_perm _ _ Hp). unfold weight. simpl. lia.
Qed.

(** No run is longer than the measure of the state it starts in. *)
Lemma nsteps_bounded n p p' :
  nsteps (step lib) n p p' -> n + measure p' <= measure p.
Proof.
  induction 1 as [|n p p1 p' Hstep _ IH]; [lia|].
  pose proof (measure_step p p1 Hstep). lia.
Qed.

Lemma worker_step_out_of_range i p :
  length (workers p) <= i -> worker_step lib i p = None.
Proof.
  intros Hi. unfold worker_step. rewrite (lookup_ge_None_2 _ _ Hi). reflexivity.
Qed.

Lemma quiescent_or_step p : quiescent lib p \/ exists p', step lib p p'.
Proof.
  assert (Hbelow : forall n,
             (forall i, i < n -> worker_step lib i p = None)
             \/ exists p', step lib p p').
  { induction n as [|n [Hnone|Hsome]]; [left; lia| |right; exact Hsome].
    destruct (worker_step lib n p) as [p'|] eqn:Hn.
    - right. exists p', n. exact Hn.
    - left. intros i Hi. destruct (decide (i = n)) as [->|]; [exact Hn|].
      apply Hnone. lia. }
  destruct (Hbelow (length (workers p))) as [Hnone|Hsome]; [left|right; exact Hsome].
  intros i. destruct (decide (i < length (workers p))); [auto|].
  apply worker_step_out_of_range. lia.
Qed.

Lemma run_ends p : exists p', steps lib p p' /\ quiescent lib p'.
Proof.
  remember (measure p) as m eqn:Hm. revert p Hm.
  induction m as [m IH] using lt_wf_ind. intros p ->.
  destruct (quiescent_or_step p) as [Hq|[p1 Hstep]].
  - exists p. split; [apply rtc_refl | exact Hq].
  - destruct (IH (measure p1) (measure_step p p1 Hstep) p1 eq_refl)
      as (p' & Hsteps & Hq).
    exists p'. split; [eapply rtc_l; eauto | exact Hq].
Qed.

(** A worker that holds a task can move. *)
Lemma running_worker_moves i p t :
  workers p !! i = Some (Running t) -> is_Some (worker_step lib i p).
Proof.
  intros Hw. unfold worker_step. rewrite Hw. destruct t as [id b].
  destruct (body_step lib _ b (world p)) as [[b' w']|o]; eauto.
Qed.

Lemma quiescent_idle p :
  quiescent lib p -> Forall (fun w => w = Idle) (workers p).
Proof.
  intros Hq. apply Forall_lookup. intros i w Hw. destruct w as [|t]; [reflexivity|].
  destruct (running_worker_moves i p t Hw) as [p' Hstep].
  rewrite (Hq i) in Hstep. discriminate.
Qed.

Lemma quiescent_pending p : workers p <> [] -> quiescent lib p -> pending p = [].
Proof.
  intros Hws Hq. unfold pending.
  rewrite (running_all_idle _ (quiescent_idle p Hq)), app_nil_r.
  destruct (workers p) as [|w0 ws] eqn:Hworkers; [congruence|].
  pose proof (quiescent_idle p Hq) as Hidle. rewrite Hworkers in Hidle.
  apply Forall_cons in Hidle as [-> _].
  specialize (Hq 0). unfold worker_step in Hq. rewrite Hworkers in Hq. simpl in Hq.
  destruct (queue p); [reflexivity | discriminate].
Qed.

Lemma tracks_quiescent f (S : outcome A -> Prop) p :
  workers p <> [] -> quiescent lib p -> tracks lib f S p ->
  exists o, get p f = Some o /\ S o.
Proof.
  intros Hws Hq [(b & Hin & _)|Hres]; [|exact Hres].
  rewrite (quiescent_pending p Hws Hq) in Hin. inversion Hin.
Qed.

Lemma steps_workers_nonempty p p' :
  steps lib p p' -> workers p <> [] -> workers p' <> [].
Proof.
  intros Hsteps Hws Hnil. destruct (steps_frame p p' Hsteps) as (Hlen & _).
  rewrite Hnil in Hlen. destruct (workers p); [congruence | discriminate].
Qed.

Lemma run_schedule_steps schedule p : steps lib p (run_schedule lib schedule p).
Proof.
  revert p. induction schedule as [|i schedule IH]; intros p; [apply rtc_refl|].
  change (run_schedule lib (i :: schedule) p)
    with (run_schedule lib schedule (default p (worker_step lib i p))).
  destruct (worker_step lib i p) as [p'|] eqn:Hstep; simpl; [|apply IH].
  eapply rtc_l; [exists i; exact Hstep | apply IH].
Qed.

(** *** Submitting a batch and gathering its results *)

Lemma submit_all_exists (bs : list (body A)) p :
  exists p' futures, submit_all lib p bs p' futures.
Proof.
  revert p. induction bs as [|b bs IH]; intros p.
  - exists p, []. constructor. apply rtc_refl.
  - destruct (IH (submit p b).1) as (p' & futures & Hall).
    exists p', ((submit p b).2 :: futures).
    apply submit_all_cons; [apply rtc_refl | exact Hall].
Qed.

Lemma submit_all_steps p (bs : list (body A)) p' p'' futures :
  submit_all lib p bs p' futures -> steps lib p' p'' ->
  submit_all lib p bs p'' futures.
Proof.
  induction 1 as [p p' Hsteps | p p1 b bs p' futures Hsteps Hall IH]; intros Hmore.
  - constructor. etrans; eauto.
  - apply submit_all_cons; auto.
Qed.

Lemma submit_all_workers p (bs : list (body A)) p' futures :
  submit_all lib p bs p' futures -> length (workers p') = length (workers p).
Proof.
  induction 1 as [p p' Hsteps | p p1 b bs p' futures Hsteps Hall IH].
  - apply (steps_frame p p' Hsteps).
  - rewrite IH. simpl. apply (steps_frame p p1 Hsteps).
Qed.

(** After the submissions, in whatever order the workers moved in
    between, the pool is well formed, each future of the batch is bound
    to the outcomes of its own body, and every earlier binding still
    holds. *)
Lemma submit_all_tracks p (bs : list (body A)) p' futures :
  submit_all lib p bs p' futures ->
  wf p ->
  wf p' /\
  Forall2 (fun f b => tracks lib f (outcomes lib false b) p') futures bs /\
  (forall f S, tracks lib f S p -> tracks lib f S p').
Proof.
  induction 1 as [p p' Hsteps | p p1 b bs p' futures Hsteps Hall IH]; intros Hwf.
  - split; [eauto using wf_steps|]. split; [constructor|].
    intros f S. apply tracks_steps; assumption.
  - pose proof (wf_steps p p1 Hwf Hsteps) as Hwf1.
    destruct (IH (wf_submit p1 b Hwf1)) as (Hwf' & Htail & Hkeep).
    split; [exact Hwf'|]. split.
    + constructor; [|exact Htail]. apply Hkeep, tracks_submit_fresh, Hwf1.
    + intros f S Htr. apply Hkeep, tracks_submit_other.
      apply (tracks_steps f S p p1); assumption.
Qed.

Lemma gather_tracks p futures (bs : list (body A)) results :
  wf p ->
  Forall2 (fun f b => tracks lib f (outcomes lib false b) p) futures bs ->
  gather p futures = Some results ->
  Forall2 (fun o b => outcomes lib false b o) results bs.
Proof.
  intros Hwf Htracks Hgather. apply mapM_Some_1 in Hgather.
  revert results Hgather.
  induction Htracks as [|f b futures bs Hf _ IH]; intros results Hgather.
  - inversion Hgather. constructor.
  - inversion Hgather as [|? o ? os Hget Hrest]; subst.
    constructor; [|apply IH, Hrest].
    exact (tracks_get f _ o p Hwf Hf Hget).
Qed.

Lemma gather_quiescent p futures (bs : list (body A)) :
  workers p <> [] -> quiescent lib p ->
  Forall2 (fun f b => tracks lib f (outcomes lib false b) p) futures bs ->
  exists results,
    gather p futures = Some results /\
    Forall2 (fun o b => outcomes lib false b o) results bs.
Proof.
  intros Hws Hq Htracks.
  induction Htracks as [|f b futures bs Hf _ (results & Hgather & Hres)].
  - exists []. split; [reflexivity | constructor].
  - destruct (tracks_quiescent f _ p Hws Hq Hf) as (o & Hget & Ho).
    exists (o :: results). split; [|constructor; assumption].
    unfold gather in *. simpl. rewrite Hget. simpl. rewrite Hgather. reflexivity.
Qed.

(** The bodies of [parallel_map] end with what [fn] returns. *)
Lemma outcomes_map_task {X} (fn : X -> A) (collection : list X) results :
  Forall2 (fun o b => outcomes lib false b o) results (map_task fn <$> collection) ->
  results = Value <$> (fn <$> collection).
Proof.
  revert results. induction collection as [|x xs IH]; intros results Hall.
  - inversion Hall. reflexivity.
  - inversion Hall as [|o ? os ? Ho Hos]; subst. simpl.
    apply outcomes_Done in Ho as ->. f_equal. apply IH, Hos.
Qed.

Lemma fmap_Value_inj (l k : list A) : Value <$> l = Value <$> k -> l = k.
Proof.
  revert k. induction l as [|a l IH]; intros [|c k] Heq; try discriminate.
  - reflexivity.
  - simpl in Heq. injection Heq as -> Heq. f_equal. apply IH, Heq.
Qed.

(** *** The claims about the thread pool *)

(** C1.  A task whose body throws, whatever it does before, is
    submitted to a pool; the workers move in any order.  No worker is
    lost; [get()] on the task's future yields nothing but an error the
    body throws, raised in the caller; once the body has thrown [e] on
    its worker, [get()] yields nothing but that same [e]; and a task
    submitted afterwards to the same pool completes: every run is
    finite, one that ends exists, and at the end of each every worker
    is back to waiting, the first future holds the error and the second
    holds an outcome of its own body. *)
Theorem exception_reaches_future_and_pool_survives p (b next : body A)
    (throws : exn -> Prop) :
  wf p -> workers p <> [] ->
  (forall o, outcomes lib false b o -> exists e, o = Error e /\ throws e) ->
  forall p2, steps lib (submit p b).1 p2 ->
    let failed := (submit p b).2 in
    let p3 := (submit p2 next).1 in
    let later := (submit p2 next).2 in
    length (workers p2) = length (workers p) /\
    (forall o, get p2 failed = Some o -> exists e, o = Error e /\ throws e) /\
    (forall e, Task failed (Done (Error e)) ∈ pending p2 ->
       forall p2', steps lib p2 p2' ->
         (forall o, get p2' failed = Some o -> o = Error e) /\
         (quiescent lib p2' -> get p2' failed = Some (Error e))) /\
    (forall n p4, nsteps (step lib) n p3 p4 -> n <= measure p3) /\
    (exists p4, steps lib p3 p4 /\ quiescent lib p4) /\
    (forall p4, steps lib p3 p4 ->
       length (workers p4) = length (workers p) /\
       (quiescent lib p4 ->
        Forall (fun w => w = Idle) (workers p4) /\
        (exists e, get p4 failed = Some (Error e) /\ throws e) /\
        (exists o, get p4 later = Some o /\ outcomes lib false next o))).
Proof.
  intros Hwf Hws Hthrows p2 Hsteps failed p3 later.
  pose proof (wf_submit p b Hwf) as Hwf1.
  pose proof (wf_steps _ p2 Hwf1 Hsteps) as Hwf2.
  pose proof (wf_submit p2 next Hwf2) as Hwf3.
  set (S := fun o : outcome A => exists e, o = Error e /\ throws e).
  assert (Hfailed2 : tracks lib failed S p2).
  { apply (tracks_steps _ _ _ p2 Hwf1 Hsteps).
    apply (tracks_weaken _ (outcomes lib false b)); [exact Hthrows|].
    apply (tracks_submit_fresh p b Hwf). }
  assert (Hfailed3 : tracks lib failed S p3)
    by apply tracks_submit_other, Hfailed2.
  assert (Hlater3 : tracks lib later (outcomes lib false next) p3)
    by apply tracks_submit_fresh, Hwf2.
  assert (Hlen2 : length (workers p2) = length (workers p))
    by apply (steps_frame _ p2 Hsteps).
  assert (Hws2 : workers p2 <> []).
  { apply (steps_workers_nonempty _ p2 Hsteps). exact Hws. }
  split; [exact Hlen2|].
  split; [intros o Hget; exact (tracks_get failed S o p2 Hwf2 Hfailed2 Hget)|].
  split.
  { intros e Hin p2' Hsteps'.
    assert (Hthrown : tracks lib failed (eq (Error e)) p2).
    { left. exists (Done (Error e)). split; [exact Hin|].
      intros o Ho. apply outcomes_Done in Ho. congruence. }
    pose proof (tracks_steps _ _ _ p2' Hwf2 Hsteps' Hthrown) as Hthrown'.
    split.
    - intros o Hget. symmetry.
      exact (tracks_get failed _ o p2' (wf_steps _ p2' Hwf2 Hsteps') Hthrown' Hget).
    - intros Hq.
      destruct (tracks_quiescent failed _ p2'
                  (steps_workers_nonempty _ _ Hsteps' Hws2) Hq Hthrown')
        as (o & Hget & <-).
      exact Hget. }
  split; [intros n p4 Hn; pose proof (nsteps_bounded n p3 p4 Hn); lia|].
  split; [apply run_ends|].
  intros p4 Hsteps4.
  assert (Hlen4 : length (workers p4) = length (workers p)).
  { destruct (steps_frame p3 p4 Hsteps4) as (-> & _). exact Hlen2. }
  split; [exact Hlen4|]. intros Hq.
  assert (Hws4 : workers p4 <> []).
  { intros Hnil. rewrite Hnil in Hlen4. destruct (workers p); [congruence|discriminate]. }
  split; [apply quiescent_idle, Hq|].
  split.
  - destruct (tracks_quiescent failed S p4 Hws4 Hq
                (tracks_steps _ _ p3 p4 Hwf3 Hsteps4 Hfailed3))
      as (o & Hget & e & -> & He).
    exists e. split; assumption.
  - apply (tracks_quiescent later _ p4 Hws4 Hq).
    apply (tracks_steps _ _ p3 p4 Hwf3 Hsteps4 Hlater3).
Qed.

(** C5.  [parallel_map] over a collection of size M: whatever the order
    in which the workers claim and complete the tasks, the sequence it
    returns is [fn] applied to each element in the order of the input,
    so it has size M and its i-th entry is [fn(input[i])]; and it does
    return: the submissions can be made, every run after them ends,
    and at the end of each the gather yields that sequence. *)
Theorem parallel_map_preserves_order {X} p (collection : list X) (fn : X -> A) :
  wf p -> workers p <> [] ->
  (forall p' results,
      parallel_map_returns lib p collection (map_task fn) p' results ->
      results = fn <$> collection /\
      length results = length collection /\
      forall i x, collection !! i = Some x -> results !! i = Some (fn x)) /\
  (exists p' futures, submit_all lib p (map_task fn <$> collection) p' futures) /\
  (forall p' futures,
      submit_all lib p (map_task fn <$> collection) p' futures ->
      (exists p'', steps lib p' p'' /\ quiescent lib p'') /\
      forall p'', steps lib p' p'' -> quiescent lib p'' ->
        gather p'' futures = Some (Value <$> (fn <$> collection)) /\
        parallel_map_returns lib p collection (map_task fn) p'' (fn <$> collection)).
Proof.
  intros Hwf Hws. split; [|split].
  - intros p' results (futures & Hall & Hgather).
    destruct (submit_all_tracks _ _ _ _ Hall Hwf) as (Hwf' & Htracks & _).
    pose proof (gather_tracks p' futures _ _ Hwf' Htracks Hgather) as Hres.
    apply outcomes_map_task, fmap_Value_inj in Hres. subst results.
    split; [reflexivity|]. split; [apply length_fmap|].
    intros i x Hx. rewrite list_lookup_fmap, Hx. reflexivity.
  - apply submit_all_exists.
  - intros p' futures Hall. split; [apply run_ends|].
    intros p'' Hsteps Hq.
    pose proof (submit_all_steps _ _ _ _ _ Hall Hsteps) as Hall''.
    destruct (submit_all_tracks _ _ _ _ Hall'' Hwf) as (Hwf'' & Htracks & _).
    assert (Hws'' : workers p'' <> []).
    { intros Hnil. pose proof (submit_all_workers _ _ _ _ Hall'') as Hlen.
      rewrite Hnil in Hlen. destruct (workers p); [congruence|discriminate]. }
    destruct (gather_quiescent p'' futures _ Hws'' Hq Htracks)
      as (results & Hgather & Hres).
    apply outcomes_map_task in Hres. subst results.
    split; [exact Hgather|]. exists futures. split; assumption.
Qed.


End WithResult.

(** *** The demos of thread_pool_demo.cpp *)

Section Demos.
Context {W Level : Type} (lib : Lib W Level).

Lemma four_workers (w : W) : workers (new_pool (A := Z) 4 w) <> [].
Proof. discriminate. Qed.

(** The callable of [demo_exception_handling] ends with an exception,
    its own or that of the line it logs. *)
Lemma throwing_task_throws (o : outcome Z) :
  outcomes lib false throwing_task o ->
  exists e, o = Error e /\
    (e = StdException "Task failed!" \/
     exists w w', log_info lib "Task throwing exception..." [] w = (Error e, w')).
Proof.
  unfold throwing_task. inversion 1 as [| | |? ? ? ? w w' Hlog Hout|? ? ? e w w' Hlog]; subst.
  - apply outcomes_Done in Hout as ->. eauto.
  - exists e. split; [reflexivity|]. right. eauto.
Qed.

(** With its flag never set the loop of [demo_task_cancellation]
    returns 1000. *)
Lemma cancelable_loop_uncancelled (n : nat) (i : Z) (o : outcome Z) :
  outcomes lib false (cancelable_loop n i) o -> o = Value 1000.
Proof.
  revert i. induction n as [|n IH]; intros i Hout; simpl in Hout.
  - apply outcomes_Done in Hout. exact Hout.
  - inversion Hout as [|? ? Hk| | |]; subst. simpl in Hk.
    inversion Hk as [| |? ? ? Hrest| |]; subst. apply (IH _ Hrest).
Qed.

End Demos.

Lemma quiet_lib_log_info_returns fmt args w e w' :
  log_info Worlds.quiet_lib fmt args w <> (Error e, w').
Proof. discriminate. Qed.

Lemma idle_quiescent {A W Level} (lib : Lib W Level) (p : pool A W) :
  Forall (fun w => w = Idle) (workers p) -> queue p = [] -> quiescent lib p.
Proof.
  intros Hidle Hq i. unfold worker_step.
  destruct (workers p !! i) as [w|] eqn:Hw; [|reflexivity].
  rewrite (proj1 (Forall_lookup _ _) Hidle i w Hw), Hq. reflexivity.
Qed.

(** [demo_exception_handling], with worker 1 claiming and running the
    task, and a task that returns 42 submitted afterwards. *)
Lemma exception_reaches_future_witness :
  let p2 := run_schedule Worlds.quiet_lib [1; 1; 1]%nat
              (submit (new_pool 4 []) throwing_task).1 in
  length (workers p2) = 4%nat /\
  get p2 0%nat = Some (Error (StdException "Task failed!")) /\
  (forall p4,
     steps Worlds.quiet_lib (submit p2 (Done (Value 42))).1 p4 ->
     quiescent Worlds.quiet_lib p4 ->
     Forall (fun w => w = Idle) (workers p4) /\
     get p4 0%nat = Some (Error (StdException "Task failed!")) /\
     get p4 1%nat = Some (Value 42)).
Proof.
  intros p2.
  assert (Hthrows : forall o,
             outcomes Worlds.quiet_lib false throwing_task o ->
             exists e, o = Error e /\ StdException "Task failed!" = e).
  { intros o Ho.
    destruct (throwing_task_throws _ o Ho) as (e & -> & [->|(w & w' & Hlog)]);
      [eauto|]. destruct (quiet_lib_log_info_returns _ _ _ _ _ Hlog). }
  destruct (exception_reaches_future_and_pool_survives Worlds.quiet_lib
              (new_pool 4 []) throwing_task (Done (Value 42))
              (eq (StdException "Task failed!"))
              (wf_new_pool 4 []) (four_workers []) Hthrows
              p2 (run_schedule_steps _ _ _))
    as (Hlen & _ & _ & _ & _ & Hend).
  split; [exact Hlen|]. split; [reflexivity|].
  intros p4 Hsteps Hq.
  destruct (proj2 (Hend p4 Hsteps) Hq) as (Hidle & (e & Hget & <-) & (o & Hlater & Ho)).
  apply outcomes_Done in Ho as ->. auto.
Defined.

(** The same on a pool with one worker: the worker that stored the
    exception is the one that runs the next task. *)
Example run_two_tasks_one_worker :
  let p0 := new_pool (A := Z) 1 [] in
  let '(p1, f1) := submit p0 throwing_task in
  let '(p2, f2) := submit p1 (Done (Value 42%Z)) in
  let p3 := run_schedule Worlds.quiet_lib [0; 0; 0; 0; 0]%nat p2 in
  get p3 f1 = Some (Error (StdException "Task failed!")) /\
  get p3 f2 = Some (Value 42%Z) /\
  workers p3 = [Idle] /\
  world p3 = [("info: Task throwing exception...", [])].
Proof. vm_compute. auto. Qed.

(** With a library whose [log::info] throws, the task ends with the
    exception of the line it logs, and that is what its future holds. *)
Example task_log_throws :
  let p1 := (submit (new_pool (A := Z) 4 []) throwing_task).1 in
  let p2 := run_schedule Worlds.failing_log_lib [0; 0; 0]%nat p1 in
  get p2 0%nat = Some (Error (StdException "log sink unavailable")).
Proof. vm_compute. reflexivity. Qed.

(** [demo_batch_processing] on three elements: the squares come back in
    the order of the input. *)
Lemma parallel_map_preserves_order_witness :
  (exists p',
      parallel_map_returns Worlds.quiet_lib (new_pool 4 []) [1; 2; 3]
        (map_task square) p' [1; 4; 9]) /\
  (forall p' results,
      parallel_map_returns Worlds.quiet_lib (new_pool 4 []) [1; 2; 3]
        (map_task square) p' results ->
      results = [1; 4; 9]).
Proof.
  destruct (parallel_map_preserves_order Worlds.quiet_lib (new_pool 4 [])
              [1; 2; 3] square (wf_new_pool 4 []) (four_workers []))
    as (Horder & (p1 & futures & Hall) & Hreturns).
  split.
  - destruct (Hreturns p1 futures Hall) as ((p2 & Hsteps & Hq) & Hend).
    exists p2. apply (Hend p2 Hsteps Hq).
  - intros p' results Hret. apply (Horder p' results Hret).
Defined.

Example parallel_map_out_of_order :
  let p0 := new_pool (A := Z) 2 [] in
  let '(p1, f1) := submit p0 (map_task square 1) in
  let '(p2, f2) := submit p1 (map_task square 2) in
  let '(p3, f3) := submit p2 (map_task square 3) in
  (* worker 1 takes the first task and stalls; worker 0 completes the
     second and the third; worker 1 completes the first last *)
  let p4 := run_schedule Worlds.quiet_lib [1; 0; 0; 0; 0; 1]%nat p3 in
  gather p4 [f1; f2; f3] = Some [Value 1; Value 4; Value 9].
Proof. vm_compute. reflexivity. Qed.



(** It fails on the error path as well: [cancel()] is seen, the line
    the task logs before it returns the sentinel throws, and [get()]
    throws that exception in the caller. *)
Example cancelled_task_log_throws :
  let p1 := (submit_cancelable (new_pool 4 []) cancelable_task).1 in
  let p2 := run_schedule Worlds.failing_log_lib [2; 2; 2]%nat p1 in
  let p3 := run_schedule Worlds.failing_log_lib [2; 2; 2]%nat (cancel p2 0%nat) in
  quiescent Worlds.failing_log_lib p3 /\
  get p3 0%nat = Some (Error (StdException "log sink unavailable")).
Proof.
  intros p1 p2 p3.
  split; [apply idle_quiescent; vm_compute; [repeat constructor | reflexivity]|].
  vm_compute. reflexivity.
Qed.

(** Left alone, the task of the demo returns 1000 in every schedule. *)
Example uncancelled_task_returns_1000 {W Level} (lib : Lib W Level) (w : W) :
  let p1 := (submit_cancelable (new_pool 4 w) cancelable_task).1 in
  forall p', steps lib p1 p' -> quiescent lib p' -> get p' 0%nat = Some (Value 1000).
Proof.
  intros p1 p' Hsteps Hq.
  pose proof (wf_new_pool (A := Z) 4 w) as Hwf.
  pose proof (tracks_submit_fresh lib _ cancelable_task Hwf) as Htr.
  pose proof (tracks_steps lib _ _ _ p' (wf_submit _ cancelable_task Hwf) Hsteps Htr)
    as Htr'.
  destruct (tracks_quiescent lib _ _ p'
              (steps_workers_nonempty lib _ p' Hsteps (four_workers w)) Hq Htr')
    as (o & Hget & Ho).
  apply cancelable_loop_uncancelled in Ho. subst o. exact Hget.
Qed.

End ThreadPoolFacts.
Module PriorityThreadPoolFacts.
Import PriorityThreadPool.

Section WithCallable.
Context {L : Type}.
Implicit Types (p : pool L) (t u v : entry L) (q : list (entry L))
  (w : worker L) (ws : list (worker L)).
Local Open Scope nat_scope.

(** *** The queue *)










Lemma ranked_tail u q : ranked (u :: q) -> ranked q.
Proof. intros [_ H]. exact H. Qed.

(** *** Submissions *)

Lemma submit_batch_frame p (batch : list (Priority * L)) :
  workers (submit_batch p batch) = workers p /\
  started (submit_batch p batch) = started p.
Proof.
  revert p. induction batch as [|x batch IH]; intros p; [auto|].
  change (submit_batch p (x :: batch))
    with (submit_batch (submit_priority p x.1 x.2) batch).
  destruct (IH (submit_priority p x.1 x.2)) as [-> ->]. auto.
Qed.



Lemma queue_order_empty (batch : list (Priority * L)) :
  queue_order [] batch = by_priority batch.
Proof. reflexivity. Qed.

(** *** The workers *)

Lemma claimed_app ws1 ws2 : claimed (ws1 ++ ws2) = claimed ws1 ++ claimed ws2.
Proof. unfold claimed. rewrite fmap_app, concat_app. reflexivity. Qed.

Lemma claimed_insert ws i w :
  ws !! i = Some w ->
  exists others : list L,
    claimed ws ≡ₚ about_to_start w ++ others /\
    forall w', claimed (<[i := w']> ws) ≡ₚ about_to_start w' ++ others.
Proof.
  intros Hi.
  exists (claimed (take i ws) ++ claimed (drop (S i) ws)). split.
  - rewrite <- (take_drop_middle ws i w Hi) at 1.
    rewrite claimed_app. unfold claimed at 2. simpl. fold (claimed (drop (S i) ws)).
    rewrite (assoc_L (++)), (comm (++) (claimed (take i ws)) (about_to_start w)).
    rewrite <- (assoc_L (++)). reflexivity.
  - intros w'. rewrite insert_take_drop by (eapply lookup_lt_Some; eauto).
    rewrite claimed_app. unfold claimed at 2. simpl. fold (claimed (drop (S i) ws)).
    rewrite (assoc_L (++)), (comm (++) (claimed (take i ws)) (about_to_start w')).
    rewrite <- (assoc_L (++)). reflexivity.
Qed.

Lemma claimed_all_idle ws : Forall (fun w => w = Idle) ws -> claimed ws = [].
Proof. induction 1 as [|w l -> _ IH]; [reflexivity | exact IH]. Qed.

Lemma load_insert ws i w w' :
  ws !! i = Some w ->
  sum_list (load <$> <[i := w']> ws) + load w = sum_list (load <$> ws) + load w'.
Proof.
  revert i. induction ws as [|w0 ws IH]; intros [|i] Hi; try discriminate.
  - injection Hi as ->.
    change (load w' + sum_list (load <$> ws) + load w
            = load w + sum_list (load <$> ws) + load w').
    lia.
  - change (load w0 + sum_list (load <$> <[i := w']> ws) + load w
            = load w0 + sum_list (load <$> ws) + load w').
    specialize (IH i Hi). lia.
Qed.

(** A step keeps the workers and what has started, is about to start
    or is queued, and uses up the measure. *)
Lemma prio_step_frame p p' :
  step p p' ->
  length (workers p') = length (workers p) /\
  started p' ++ claimed (workers p') ++ (callable <$> queue p')
    ≡ₚ started p ++ claimed (workers p) ++ (callable <$> queue p) /\
  measure p' < measure p.
Proof.
  intros [i Hstep]. unfold worker_step in Hstep.
  destruct (workers p !! i) as [w|] eqn:Hw; [|discriminate].
  destruct (claimed_insert _ _ _ Hw) as (others & Hold & Hnew).
  unfold measure.
  destruct w as [|t|t].
  - destruct (queue p) as [|t rest] eqn:Hq; [discriminate|].
    injection Hstep as <-. simpl. rewrite length_insert.
    pose proof (load_insert _ _ _ (Claimed t) Hw) as Hload. simpl in Hload.
    split; [reflexivity|]. split; [|lia].
    rewrite Hnew, Hold. simpl. apply Permutation_app_head.
    apply Permutation_middle.
  - injection Hstep as <-. simpl. rewrite length_insert.
    pose proof (load_insert _ _ _ (Running t) Hw) as Hload. simpl in Hload.
    split; [reflexivity|]. split; [|lia].
    rewrite Hnew, Hold. simpl. rewrite <- (assoc_L (++)). reflexivity.
  - injection Hstep as <-. simpl. rewrite length_insert.
    pose proof (load_insert _ _ _ Idle Hw) as Hload. simpl in Hload.
    split; [reflexivity|]. split; [|lia].
    rewrite Hnew, Hold. reflexivity.
Qed.

Lemma prio_steps_frame p p' :
  steps p p' ->
  length (workers p') = length (workers p) /\
  started p' ++ claimed (workers p') ++ (callable <$> queue p')
    ≡ₚ started p ++ claimed (workers p) ++ (callable <$> queue p).
Proof.
  induction 1 as [|p p1 p' Hstep _ (IHw & IHs)]; [auto|].
  destruct (prio_step_frame p p1 Hstep) as (Hw & Hs & _).
  rewrite IHw, IHs. auto.
Qed.






Lemma prio_quiescent_idle p :
  quiescent p -> Forall (fun w => w = Idle) (workers p).
Proof.
  intros Hq. apply Forall_lookup. intros i w Hw.
  specialize (Hq i). unfold worker_step in Hq. rewrite Hw in Hq.
  destruct w; [reflexivity | discriminate..].
Qed.

Lemma prio_quiescent_queue p : workers p <> [] -> quiescent p -> queue p = [].
Proof.
  intros Hws Hq. pose proof (prio_quiescent_idle p Hq) as Hidle.
  destruct (workers p) as [|w ws] eqn:Hworkers; [congruence|].
  apply Forall_cons in Hidle as [-> _].
  specialize (Hq 0). unfold worker_step in Hq. rewrite Hworkers in Hq. simpl in Hq.
  destruct (queue p); [reflexivity|discriminate].
Qed.

Lemma prio_run_schedule_steps schedule p : steps p (run_schedule schedule p).
Proof.
  revert p. induction schedule as [|i schedule IH]; intros p; [apply rtc_refl|].
  change (run_schedule (i :: schedule) p)
    with (run_schedule schedule (default p (worker_step i p))).
  destruct (worker_step i p) as [p'|] eqn:Hstep; simpl; [|apply IH].
  eapply rtc_l; [exists i; exact Hstep | apply IH].
Qed.

Lemma prio_idle_quiescent p :
  Forall (fun w => w = Idle) (workers p) -> queue p = [] -> quiescent p.
Proof.
  intros Hidle Hq i. unfold worker_step.
  destruct (workers p !! i) as [w|] eqn:Hw; [|reflexivity].
  rewrite (proj1 (Forall_lookup _ _) Hidle i w Hw), Hq. reflexivity.
Qed.

(** *** Submissions ahead of the worker *)

Lemma busy_step_step p p' : busy_step p p' -> step p p'.
Proof. intros (i & w & _ & _ & Hstep). exists i. exact Hstep. Qed.






(** *** The claim about the priority pool *)


End WithCallable.

(** *** [demo_priority_scheduling] on one worker *)


Example fifo_within_a_level :
  by_priority [(Low, "a"); (High, "b"); (Low, "c"); (High, "d"); (Low, "e")]
  = ["b"; "d"; "a"; "c"; "e"].
Proof. reflexivity. Qed.

(** The single worker is in a call while the first two tasks of the
    demo are submitted and comes to the end of it before the last two
    are: the order is the same. *)
Example priority_order_behind_a_running_task :
  let p0 := run_schedule [0; 0]%nat (submit_priority (new_pool 1) Low "first") in
  let p1 := submit_batch p0 (take 2 demo_submissions) in
  let p2 := run_schedule [0]%nat p1 in
  let p3 := submit_batch p2 (drop 2 demo_submissions) in
  let p4 := run_schedule (replicate 12 0%nat) p3 in
  workers p0 = [Running (Entry Low 0%nat "first")] /\
  workers p2 = [Idle] /\
  submit_ahead p0 demo_submissions p3 /\
  quiescent p4 /\
  started p4 =
    [ "first";
      "Critical priority task (should run first)";
      "High priority task (should run first)";
      "Medium priority task";
      "Low priority task" ].
Proof.
  intros p0 p1 p2 p3 p4. split; [reflexivity|]. split; [reflexivity|].
  split.
  { apply (submit_ahead_cons p0 p0); [apply rtc_refl|].
    eapply submit_ahead_cons; [apply rtc_refl|].
    apply (submit_ahead_cons _ p2).
    - eapply rtc_l; [|apply rtc_refl].
      exists 0%nat, (Running (Entry Low 0%nat "first")).
      split; [reflexivity|]. split; [discriminate | reflexivity].
    - eapply submit_ahead_cons; [apply rtc_refl|].
      apply submit_ahead_nil, rtc_refl. }
  split; [apply prio_idle_quiescent; [repeat constructor | reflexivity]|].
  reflexivity.
Qed.

(** One worker is needed: with two, the second takes the High task
    behind the first, which has taken the Critical task, and calls it
    before the first gets to call its own. *)
Example two_workers_start_out_of_order :
  let p1 := submit_batch (new_pool 2) demo_submissions in
  let p2 := run_schedule [0; 1; 1; 0; 0; 0; 0; 1; 1; 1; 0; 1]%nat p1 in
  steps p1 p2 /\ quiescent p2 /\
  started p2 =
    [ "High priority task (should run first)";
      "Critical priority task (should run first)";
      "Medium priority task";
      "Low priority task" ].
Proof.
  intros p1 p2. split; [apply prio_run_schedule_steps|].
  split; [apply prio_idle_quiescent; [repeat constructor | reflexivity]|].
  reflexivity.
Qed.

End PriorityThreadPoolFacts.

Module ErrorHandlingMore.
Import Core ErrorHandling ErrorHandlingFacts FloatSigns.

(** *** Signs through the IEEE operations *)

Lemma SFltb_zero_iff (s : SpecFloat.spec_float) :
  SpecFloat.SFltb s (SpecFloat.S754_zero false) = false <-> not_below_zero s.
Proof.
  destruct s as [[]| []| |[] m e]; unfold SpecFloat.SFltb; simpl;
    intuition congruence.
Qed.

Lemma ltb_zero_iff (x : float) :
  PrimFloat.ltb x 0 = false <-> not_below_zero (Prim2SF x).
Proof. rewrite ltb_spec. apply SFltb_zero_iff. Qed.

Lemma binary_round_aux_not_below_zero prec emax m e l :
  not_below_zero (SpecFloat.binary_round_aux prec emax false m e l).
Proof.
  unfold SpecFloat.binary_round_aux.
  destruct (SpecFloat.shr_fexp prec emax m e l) as [mrs' e'].
  destruct (SpecFloat.shr_fexp prec emax _ e' SpecFloat.loc_Exact) as [mrs'' e''].
  destruct (SpecFloat.shr_m mrs''); simpl; auto.
  destruct (Z.leb _ _); simpl; auto.
Qed.

Lemma SFsqrt_not_below_zero prec emax (s : SpecFloat.spec_float) :
  not_below_zero s -> not_below_zero (SpecFloat.SFsqrt prec emax s).
Proof.
  destruct s as [[]| []| |[] m e]; simpl; auto; try discriminate.
  intros _.
  destruct (SpecFloat.SFsqrt_core_binary prec emax (Z.pos m) e) as [[mz ez] lz].
  apply binary_round_aux_not_below_zero.
Qed.

Lemma SFmul_not_below_zero prec emax (x y : SpecFloat.spec_float) :
  not_below_zero x -> not_below_zero y ->
  not_below_zero (SpecFloat.SFmul prec emax x y).
Proof.
  destruct x as [sx| sx| |sx mx ex], y as [sy| sy| |sy my ey]; simpl; auto;
    try (intros -> ->; reflexivity).
  intros -> ->. apply binary_round_aux_not_below_zero.
Qed.

Lemma sqrt_not_below_zero (x : float) :
  PrimFloat.ltb x 0 = false -> PrimFloat.ltb (PrimFloat.sqrt x) 0 = false.
Proof.
  rewrite !ltb_zero_iff, sqrt_spec. apply SFsqrt_not_below_zero.
Qed.

Lemma eqb_zero_iff (b : float) :
  PrimFloat.eqb b 0 = true <-> b = 0%float \/ b = (-0)%float.
Proof.
  rewrite FloatAxioms.eqb_spec.
  change (Prim2SF 0) with (SpecFloat.S754_zero false). split.
  - intros H. rewrite <- (SF2Prim_Prim2SF b).
    destruct (Prim2SF b) as [[]| []| |[] m e]; try discriminate;
      [right | left]; reflexivity.
  - intros [->| ->]; reflexivity.
Qed.

Lemma div_by_nan (a : float) : PrimFloat.div a nan = nan.
Proof.
  rewrite <- (SF2Prim_Prim2SF (PrimFloat.div a nan)), div_spec.
  change (Prim2SF nan) with SpecFloat.S754_nan. unfold SF64div.
  destruct (Prim2SF a); reflexivity.
Qed.

(** *** More about [safe_divide], [safe_sqrt] and [complex_calculation] *)

(** X1.  [safe_divide] refuses exactly the two zeros, [+0.0] and [-0.0]:
    for every other divisor, infinities and NaN included, it is
    [Ok(a / b)]; with a NaN divisor that is [Ok(NaN)] for every [a]. *)
Theorem safe_divide_refuses_exactly_zero (a b : float) :
  (safe_divide a b = Err "Division by zero" <->
   b = 0%float \/ b = (-0)%float) /\
  (safe_divide a b = Ok (PrimFloat.div a b) <->
   b <> 0%float /\ b <> (-0)%float) /\
  safe_divide a nan = Ok nan.
Proof.
  pose proof (eqb_zero_iff b) as Hzero. unfold safe_divide.
  split; [|split].
  - destruct (PrimFloat.eqb b 0).
    + split; [intros _; apply Hzero; reflexivity | reflexivity].
    + split; [discriminate|]. intros H. apply Hzero in H. discriminate.
  - destruct (PrimFloat.eqb b 0).
    + split; [discriminate|]. intros [Hp Hn].
      destruct (proj1 Hzero eq_refl); contradiction.
    + split; [|reflexivity]. intros _.
      split; intros ->; [assert (false = true) by (apply Hzero; auto)
                        |assert (false = true) by (apply Hzero; auto)];
        discriminate.
  - change (PrimFloat.eqb nan 0) with false. cbv iota.
    rewrite div_by_nan. reflexivity.
Qed.

(** X2.  [safe_sqrt] is an error exactly when [x < 0.0], and the value
    in its [Ok] is never below zero: [v < 0.0] is false for it (it may
    be NaN, for a NaN argument, or [-0.0], for [-0.0]). *)
Theorem safe_sqrt_never_below_zero (x : float) :
  match safe_sqrt x with
  | Ok v => PrimFloat.ltb x 0 = false /\ PrimFloat.ltb v 0 = false
  | Err e =>
      PrimFloat.ltb x 0 = true /\
      e = "Cannot take square root of negative number"
  end.
Proof.
  unfold safe_sqrt. destruct (PrimFloat.ltb x 0) eqn:Hx.
  - split; reflexivity.
  - split; [reflexivity | apply sqrt_not_below_zero, Hx].
Qed.

(** X3.  Whatever its arguments, the value in an [Ok] of
    [complex_calculation] is never below zero. *)
Theorem complex_calculation_never_below_zero (a b c v : float) :
  complex_calculation a b c = Ok v -> PrimFloat.ltb v 0 = false.
Proof.
  unfold complex_calculation, safe_divide, safe_sqrt.
  destruct (PrimFloat.eqb b 0); simpl; [discriminate|].
  destruct (PrimFloat.ltb (PrimFloat.add (PrimFloat.div a b) c) 0) eqn:Hlt;
    simpl; [discriminate|].
  intros [= <-]. apply ltb_zero_iff. rewrite mul_spec.
  apply SFmul_not_below_zero.
  - apply ltb_zero_iff, sqrt_not_below_zero, Hlt.
  - reflexivity.
Qed.

Lemma complex_calculation_never_below_zero_witness :
  PrimFloat.ltb 4 0 = false.
Proof. exact (complex_calculation_never_below_zero 16 4 0 4 eq_refl). Defined.

(** *** More about [find_element] *)

(** X4.  [find_element] has a value exactly when the target occurs in
    the vector, whatever the size of the vector. *)
Theorem find_element_has_value_iff (vec : list Z) (target : Z) :
  (has_value (find_element vec target) = true <-> target ∈ vec) /\
  (find_element vec target = none <-> target ∉ vec).
Proof.
  destruct (decide (target ∈ vec)) as [Hin|Hout].
  - apply list_elem_of_lookup in Hin as [j Hj].
    destruct (first_occurrence_exists vec target j Hj) as (k & _ & Hk).
    rewrite (find_element_first vec target k Hk). simpl.
    assert (target ∈ vec) by (apply list_elem_of_lookup; eauto).
    split; split; try done.
  - rewrite (find_element_absent vec target Hout). simpl.
    split; split; try done.
Qed.

(** X5.  On a vector whose indices all fit in [int], an index that
    [find_element] returns is inside the vector, the target is there,
    and the target is nowhere before it. *)
Theorem find_element_sound (vec : list Z) (target i : Z) :
  Z.of_nat (length vec) <= 2147483648 ->
  find_element vec target = some i ->
  0 <= i < Z.of_nat (length vec) /\
  vec !! Z.to_nat i = Some target /\
  forall j, (j < Z.to_nat i)%nat -> vec !! j <> Some target.
Proof.
  intros Hsize Hfound.
  destruct (decide (target ∈ vec)) as [Hin|Hout];
    [|rewrite (find_element_absent vec target Hout) in Hfound; discriminate].
  apply list_elem_of_lookup in Hin as [j Hj].
  destruct (first_occurrence_exists vec target j Hj) as (k & _ & Hk).
  rewrite (find_element_first vec target k Hk) in Hfound.
  pose proof (lookup_lt_Some _ _ _ (proj1 Hk)) as Hlt.
  rewrite static_cast_int_small in Hfound by (unfold INT_MAX; lia).
  injection Hfound as <-. rewrite Nat2Z.id.
  split; [lia|]. exact Hk.
Qed.

Lemma find_element_sound_witness :
  0 <= 2 < Z.of_nat (length [10; 20; 30; 40; 50]) /\
  [10; 20; 30; 40; 50] !! Z.to_nat 2 = Some 30 /\
  forall j, (j < Z.to_nat 2)%nat -> [10; 20; 30; 40; 50] !! j <> Some 30.
Proof.
  apply (find_element_sound [10; 20; 30; 40; 50] 30 2); [simpl; lia | reflexivity].
Defined.

(** X6.  What comes behind the first occurrence does not matter:
    appending elements to a vector that holds the target leaves the
    result of [find_element] as it is. *)
Theorem find_element_ignores_what_follows (vec more : list Z) (target : Z) :
  target ∈ vec ->
  find_element (vec ++ more) target = find_element vec target.
Proof.
  intros Hin. apply list_elem_of_lookup in Hin as [j Hj].
  destruct (first_occurrence_exists vec target j Hj) as (k & _ & Hk).
  rewrite (find_element_first vec target k Hk).
  apply find_element_first. destruct Hk as [Hat Hbefore].
  pose proof (lookup_lt_Some _ _ _ Hat) as Hlt. split.
  - rewrite lookup_app_l by exact Hlt. exact Hat.
  - intros i Hi. rewrite lookup_app_l by lia. apply Hbefore, Hi.
Qed.

Lemma find_element_ignores_what_follows_witness :
  find_element ([10; 20; 30] ++ [20; 20; 99]) 20 = find_element [10; 20; 30] 20.
Proof.
  apply find_element_ignores_what_follows.
  apply elem_of_cons. right. apply elem_of_cons. left. reflexivity.
Defined.

End ErrorHandlingMore.

Module ThreadPoolDemoFacts.
Import ThreadPool ThreadPoolFacts ThreadPoolDemo Process.

(** *** [expensive_computation] *)

Section Expensive.
Variables sin cos : float -> float.

Lemma expensive_loop_eq (fuel : nat) (n i : Z) (result : float) :
  expensive_loop sin cos fuel n i result
  = if i <=? n
    then
      match fuel with
      | O => OutOfFuel
      | S fuel' =>
          if i =? INT_MAX then Overflows
          else expensive_loop sin cos fuel' n (i + 1)
                 (PrimFloat.add result (term sin cos i))
      end
    else Returns result.
Proof. destruct fuel; reflexivity. Qed.

(** With as many iterations allowed as are left, and the bound below
    [INT_MAX], the loop returns; with one more allowed and the bound one
    higher it adds the term of the new bound last. *)
Lemma expensive_loop_next (n : Z) (k : nat) :
  forall (i : Z) (result : float),
    i + Z.of_nat k = n + 1 -> n + 1 < INT_MAX ->
    exists x,
      expensive_loop sin cos k n i result = Returns x /\
      expensive_loop sin cos (S k) (n + 1) i result
      = Returns (PrimFloat.add x (term sin cos (n + 1))).
Proof.
  induction k as [|k IH]; intros i result Hi Hn.
  - assert (i = n + 1) by lia. subst i. exists result.
    rewrite (expensive_loop_eq 0), (expensive_loop_eq 1), (expensive_loop_eq 0).
    rewrite (proj2 (Z.leb_gt (n + 1) n)) by lia.
    rewrite Z.leb_refl.
    rewrite (proj2 (Z.eqb_neq (n + 1) INT_MAX)) by lia.
    rewrite (proj2 (Z.leb_gt (n + 1 + 1) (n + 1))) by lia.
    split; reflexivity.
  - rewrite (expensive_loop_eq (S k)), (expensive_loop_eq (S (S k))).
    rewrite (proj2 (Z.leb_le i n)) by lia.
    rewrite (proj2 (Z.leb_le i (n + 1))) by lia.
    rewrite (proj2 (Z.eqb_neq i INT_MAX)) by lia.
    apply IH; lia.
Qed.

(** The bound on the iterations is never what stops the loop. *)
Lemma expensive_loop_fuel (n : Z) (k : nat) :
  forall (i : Z) (result : float),
    n + 1 <= i + Z.of_nat k ->
    expensive_loop sin cos k n i result <> OutOfFuel.
Proof.
  induction k as [|k IH]; intros i result Hi; rewrite expensive_loop_eq.
  - rewrite (proj2 (Z.leb_gt i n)) by lia. discriminate.
  - destruct (i <=? n); [|discriminate].
    destruct (i =? INT_MAX); [discriminate|]. apply IH. lia.
Qed.

(** With the bound at [INT_MAX] the loop comes to increment an index
    that holds [INT_MAX]. *)
Lemma expensive_loop_overflows (k : nat) :
  forall (i : Z) (result : float),
    i <= INT_MAX -> i + Z.of_nat k = INT_MAX + 1 ->
    expensive_loop sin cos k INT_MAX i result = Overflows.
Proof.
  induction k as [|k IH]; intros i result Hle Hi; [lia|].
  rewrite expensive_loop_eq. rewrite (proj2 (Z.leb_le i INT_MAX) Hle).
  destruct (i =? INT_MAX) eqn:Hmax; [reflexivity|].
  apply Z.eqb_neq in Hmax. apply IH; lia.
Qed.

(** X7.  [expensive_computation(n)] is [0.0] when [n] is not positive,
    the loop not being entered.  For [n] from 0 on with [n + 1] below
    [INT_MAX], both [expensive_computation(n)] and
    [expensive_computation(n + 1)] return, and the second is the first
    with the term of [n + 1] added last: the sum is accumulated in the
    order i = 1, 2, ..., n.  At [n = INT_MAX] the loop does not return:
    after the iteration of [i = INT_MAX] it increments [i].  The bound
    on the iterations is never what stops the loop. *)
Theorem expensive_computation_accumulates (n : Z) :
  (n <= 0 -> expensive_computation sin cos n = Returns 0%float) /\
  (0 <= n -> n + 1 < INT_MAX ->
   exists x,
     expensive_computation sin cos n = Returns x /\
     expensive_computation sin cos (n + 1)
     = Returns (PrimFloat.add x (term sin cos (n + 1)))) /\
  expensive_computation sin cos INT_MAX = Overflows /\
  expensive_computation sin cos n <> OutOfFuel.
Proof.
  unfold expensive_computation. split; [|split; [|split]].
  - intros Hn. replace (Z.to_nat n) with 0%nat by lia.
    rewrite expensive_loop_eq. rewrite (proj2 (Z.leb_gt 1 n)) by lia. reflexivity.
  - intros Hn Hmax.
    rewrite Z2Nat.inj_add by lia.
    rewrite Nat.add_comm. change (Z.to_nat 1 + Z.to_nat n)%nat with (S (Z.to_nat n)).
    apply expensive_loop_next; lia.
  - apply expensive_loop_overflows; unfold INT_MAX; lia.
  - apply expensive_loop_fuel. lia.
Qed.

(** A call with an argument below [INT_MAX] returns. *)
Lemma expensive_computation_returns (n : Z) :
  n < INT_MAX -> exists v, expensive_computation sin cos n = Returns v.
Proof.
  intros Hn. unfold expensive_computation.
  destruct (Z_le_gt_dec n 0) as [Hle|Hpos].
  - exists 0%float. replace (Z.to_nat n) with 0%nat by lia.
    rewrite expensive_loop_eq. rewrite (proj2 (Z.leb_gt 1 n)) by lia. reflexivity.
  - destruct (expensive_loop_next (n - 1) (Z.to_nat (n - 1)) 1 0%float)
      as (x & _ & Hx); [lia | lia |].
    replace (n - 1 + 1) with n in Hx by lia.
    replace (S (Z.to_nat (n - 1))) with (Z.to_nat n) in Hx by lia.
    eauto.
Qed.
End Expensive.

(** With the identity in the place of both library functions, at n = 3. *)
Lemma expensive_computation_accumulates_witness :
  exists x,
    expensive_computation (fun x => x) (fun x => x) 3 = Returns x /\
    expensive_computation (fun x => x) (fun x => x) (3 + 1)
    = Returns (PrimFloat.add x (term (fun x => x) (fun x => x) (3 + 1))).
Proof.
  apply (proj1 (proj2 (expensive_computation_accumulates (fun x => x) (fun x => x) 3))).
  - lia.
  - unfold INT_MAX. lia.
Defined.

(** *** The callable of [demo_task_cancellation] against its answers *)

Section Cancelable.
Context {W Level : Type} (lib : Lib W Level).

(** X8.  When none of its [n] queries is answered "cancelled", the loop
    returns 1000, having asked [n] times and slept [10 n] ms, and
    having logged nothing: the world is as it was. *)
Theorem cancelable_loop_runs_out (answers : nat -> bool) (n : nat) :
  forall (i : Z) (asked : nat) (slept : Z) (w : W),
    (forall j, (j < n)%nat -> answers (asked + j)%nat = false) ->
    run_with lib answers (cancelable_loop n i) asked slept w
    = (Value 1000, (asked + n)%nat, slept + 10 * Z.of_nat n, w).
Proof.
  induction n as [|n IH]; intros i asked slept w Hnone.
  - simpl. rewrite Nat.add_0_r, Z.add_0_r. reflexivity.
  - replace (asked + S n)%nat with (S asked + n)%nat by lia.
    replace (slept + 10 * Z.of_nat (S n)) with (slept + 10 + 10 * Z.of_nat n) by lia.
    pose proof (Hnone 0%nat ltac:(lia)) as H0. rewrite Nat.add_0_r in H0.
    simpl. rewrite H0. simpl. apply IH.
    intros j Hj. replace (S asked + j)%nat with (asked + S j)%nat by lia.
    apply Hnone. lia.
Qed.

(** X9.  When the query of iteration [j] is the first to be answered
    "cancelled", the loop stops there: it has asked [j + 1] times and
    slept [10 j] ms, it logs the line "Task cancelled at iteration {}"
    with the number of the iteration, and it does not sleep again.  It
    returns -1 when that line is logged; when the line throws, the
    callable ends with the exception and not with -1. *)
Theorem cancelable_loop_stops_at_first_cancel (answers : nat -> bool) (n j : nat) :
  forall (i : Z) (asked : nat) (slept : Z) (w : W),
    (j < n)%nat ->
    (forall k, (k < j)%nat -> answers (asked + k)%nat = false) ->
    answers (asked + j)%nat = true ->
    let logged :=
      log_info lib "Task cancelled at iteration {}" [ArgInt (i + Z.of_nat j)] w in
    run_with lib answers (cancelable_loop n i) asked slept w
    = (match logged.1 with Value _ => Value (-1) | Error e => Error e end,
       (asked + j + 1)%nat, slept + 10 * Z.of_nat j, logged.2).
Proof.
  revert n. induction j as [|j IH]; intros n i asked slept w Hj Hbefore Hat logged;
    (destruct n as [|n]; [lia|]).
  - rewrite Nat.add_0_r in Hat.
    replace (asked + 0 + 1)%nat with (S asked) by lia.
    replace (slept + 10 * Z.of_nat 0) with slept by lia.
    unfold logged. replace (i + Z.of_nat 0) with i by lia.
    simpl. rewrite Hat. simpl.
    destruct (log_info lib "Task cancelled at iteration {}" [ArgInt i] w)
      as [[u|e] w']; reflexivity.
  - pose proof (Hbefore 0%nat ltac:(lia)) as H0. rewrite Nat.add_0_r in H0.
    replace (asked + S j + 1)%nat with (S asked + j + 1)%nat by lia.
    replace (slept + 10 * Z.of_nat (S j)) with (slept + 10 + 10 * Z.of_nat j) by lia.
    unfold logged. replace (i + Z.of_nat (S j)) with (i + 1 + Z.of_nat j) by lia.
    simpl. rewrite H0. simpl. apply (IH n).
    + lia.
    + intros k Hk. replace (S asked + k)%nat with (asked + S k)%nat by lia.
      apply Hbefore. lia.
    + replace (S asked + j)%nat with (asked + S j)%nat by lia. exact Hat.
Qed.
End Cancelable.

Lemma cancelable_loop_runs_out_witness :
  run_with Worlds.quiet_lib (fun _ => false) cancelable_task 0 0 []
  = (Value 1000, 1000%nat, 10000, []).
Proof.
  apply (cancelable_loop_runs_out Worlds.quiet_lib (fun _ => false) 1000 0 0%nat 0 []).
  reflexivity.
Defined.

(** Cancelled 150 ms into the run: the query of iteration 15 is the
    first to see the flag. *)
Lemma cancelable_loop_stops_at_first_cancel_witness :
  run_with Worlds.quiet_lib (fun q => (15 <=? q)%nat) cancelable_task 0 0 []
  = (Value (-1), 16%nat, 150,
     [("info: Task cancelled at iteration {}", [ArgInt 15])]).
Proof.
  apply (cancelable_loop_stops_at_first_cancel Worlds.quiet_lib
           (fun q => (15 <=? q)%nat) 1000 15 0 0%nat 0 []).
  - lia.
  - intros k Hk. apply Nat.leb_gt. lia.
  - reflexivity.
Defined.

(** The same with a library that cannot write that line: the callable
    ends with the exception of the line. *)
Example cancelable_loop_log_throws :
  run_with (Worlds.failing_on "Task cancelled at iteration {}")
    (fun q => (15 <=? q)%nat) cancelable_task 0 0 []
  = (Error (StdException "log sink unavailable"), 16%nat, 150, []).
Proof. vm_compute. reflexivity. Qed.

(** *** What the workers can put into a slot *)

Section WithResult.
Context {A W Level : Type} (lib : Lib W Level).
Implicit Types (p : pool A W) (b : body A) (S : outcome A -> Prop).

(** A property of the unfinished tasks that the moves of a body keep is
    kept by the steps of the pool. *)
Lemma pending_step (P : task A -> Prop) p p' :
  (forall id b b' c (w w' : W),
      P (Task id b) -> body_step lib c b w = inl (b', w') -> P (Task id b')) ->
  step lib p p' ->
  (forall t, t ∈ pending p -> P t) ->
  forall t, t ∈ pending p' -> P t.
Proof.
  intros Hmove Hstep HP t Ht.
  destruct (step_cases lib p p' Hstep)
    as [Hperm _ _ _ | id b b' others Hp Hp' _ _ Hbody | id o Hp _ _ _].
  - apply HP. rewrite <- Hperm. exact Ht.
  - rewrite Hp' in Ht. apply elem_of_cons in Ht as [->|Ht].
    + eapply Hmove; [|exact Hbody]. apply HP. rewrite Hp. left.
    + apply HP. rewrite Hp. right. exact Ht.
  - apply HP. rewrite Hp. right. exact Ht.
Qed.

(** A resolved slot was resolved before the step, or the step wrote
    into it what a finished body had returned or thrown. *)
Lemma step_slot_origin p p' (id : nat) (o : outcome A) :
  step lib p p' -> slots p' !! id = Some o ->
  slots p !! id = Some o \/ Task id (Done o) ∈ pending p.
Proof.
  intros Hstep Hslot.
  destruct (step_cases lib p p' Hstep)
    as [_ _ Hs _ | ? ? ? ? _ _ _ Hs _ | id' o' Hp _ Hs _];
    rewrite Hs in Hslot; [auto | auto |].
  destruct (decide (id = id')) as [->|Hne].
  - rewrite lookup_insert_eq in Hslot. injection Hslot as ->.
    right. rewrite Hp. left.
  - rewrite lookup_insert_ne in Hslot by congruence. auto.
Qed.

Lemma ends_in_body_step S c b (w : W) b' w' :
  ends_in lib S b -> body_step lib c b w = inl (b', w') -> ends_in lib S b'.
Proof.
  intros Hends Hstep.
  destruct Hends as [o Ho|k Hk|ms k Hk|fmt args k Hthrows Hk]; simpl in Hstep.
  - discriminate.
  - injection Hstep as <- <-. apply Hk.
  - injection Hstep as <- <-. exact Hk.
  - destruct (log_info lib fmt args w) as [[u|e] w1] eqn:Hlog;
      injection Hstep as <- <-; [exact Hk|].
    constructor. eapply Hthrows, Hlog.
Qed.

Lemma all_end_in_new_pool S n (w : W) : all_end_in lib S (new_pool (A := A) n w).
Proof.
  split.
  - intros t Ht. unfold pending, new_pool in Ht. simpl in Ht.
    rewrite running_replicate_idle in Ht. inversion Ht.
  - intros id o Hslot. simpl in Hslot. rewrite lookup_empty in Hslot. discriminate.
Qed.

Lemma all_end_in_submit S p b :
  ends_in lib S b -> all_end_in lib S p -> all_end_in lib S (submit p b).1.
Proof.
  intros Hb [Hpend Hslots]. split; [|exact Hslots].
  intros t Ht. rewrite pending_submit in Ht.
  apply elem_of_cons in Ht as [->|Ht]; [exact Hb | apply Hpend, Ht].
Qed.

Lemma all_end_in_cancel S p handle :
  all_end_in lib S p -> all_end_in lib S (cancel p handle).
Proof. intros H. exact H. Qed.

Lemma all_end_in_set_world S p (w : W) :
  all_end_in lib S p -> all_end_in lib S (set_world p w).
Proof. intros H. exact H. Qed.

Lemma all_end_in_step S p p' :
  all_end_in lib S p -> step lib p p' -> all_end_in lib S p'.
Proof.
  intros [Hpend Hslots] Hstep. split.
  - apply (pending_step (fun t => ends_in lib S (task_body t)) p p');
      [|exact Hstep|exact Hpend].
    intros id b b' c w w'. apply ends_in_body_step.
  - intros id o Hslot.
    destruct (step_slot_origin p p' id o Hstep Hslot) as [Hold|Hin].
    + apply (Hslots id o Hold).
    + specialize (Hpend _ Hin). simpl in Hpend. inversion Hpend. assumption.
Qed.

Lemma all_end_in_steps S p p' :
  all_end_in lib S p -> steps lib p p' -> all_end_in lib S p'.
Proof. intros Hall Hsteps. induction Hsteps; eauto using all_end_in_step. Qed.

(** *** Tasks that do not log leave the world as it is *)

Lemma no_log_body_step c b (w : W) b' w' :
  no_log b -> body_step lib c b w = inl (b', w') -> no_log b' /\ w' = w.
Proof.
  destruct b as [o|k|ms k|fmt args k]; simpl; intros Hquiet Hstep.
  - discriminate.
  - injection Hstep as <- <-. split; [|reflexivity]. destruct c; apply Hquiet.
  - injection Hstep as <- <-. auto.
  - destruct Hquiet.
Qed.

Lemma quiet_step p p' : quiet p -> step lib p p' -> quiet p' /\ world p' = world p.
Proof.
  intros Hquiet Hstep. split.
  - unfold quiet.
    apply (pending_step (fun t => no_log (task_body t)) p p');
      [|exact Hstep|exact Hquiet].
    intros id b b' c w w' Hb Hmove. apply (no_log_body_step c b w b' w' Hb Hmove).
  - destruct (step_cases lib p p' Hstep)
      as [_ _ _ Hw | id b b' others Hp _ _ _ Hbody | id o _ _ _ Hw]; [exact Hw| |exact Hw].
    assert (Hb : no_log b) by (apply (Hquiet (Task id b)); rewrite Hp; left).
    apply (no_log_body_step _ _ _ _ _ Hb Hbody).
Qed.

Lemma quiet_steps p p' : quiet p -> steps lib p p' -> quiet p' /\ world p' = world p.
Proof.
  intros Hquiet Hsteps. induction Hsteps as [p|p p1 p' Hstep _ IH]; [auto|].
  destruct (quiet_step p p1 Hquiet Hstep) as [Hquiet1 Hw1].
  destruct (IH Hquiet1) as [Hquiet' Hw']. split; [exact Hquiet'|congruence].
Qed.

Lemma quiet_new_pool n (w : W) : quiet (new_pool (A := A) n w).
Proof.
  intros t Ht. unfold pending, new_pool in Ht. simpl in Ht.
  rewrite running_replicate_idle in Ht. inversion Ht.
Qed.

Lemma quiet_submit p b : no_log b -> quiet p -> quiet (submit p b).1.
Proof.
  intros Hb Hquiet t Ht. rewrite pending_submit in Ht.
  apply elem_of_cons in Ht as [->|Ht]; [exact Hb | apply Hquiet, Ht].
Qed.

Lemma submit_all_quiet p (bs : list (body A)) p' futures :
  submit_all lib p bs p' futures -> quiet p -> Forall no_log bs ->
  quiet p' /\ world p' = world p.
Proof.
  induction 1 as [p p' Hsteps | p p1 b bs p' futures Hsteps Hall IH];
    intros Hquiet Hbs.
  - apply quiet_steps; assumption.
  - apply Forall_cons in Hbs as [Hb Hbs].
    destruct (quiet_steps p p1 Hquiet Hsteps) as [Hquiet1 Hw1].
    destruct (IH (quiet_submit p1 b Hb Hquiet1) Hbs) as [Hquiet' Hw'].
    split; [exact Hquiet'|]. rewrite Hw'. exact Hw1.
Qed.

(** *** The end of the pool *)

Lemma finish_steps p p' : rtc (finish_step lib) p p' -> steps lib p p'.
Proof.
  induction 1 as [|p p1 p' (i & t & _ & Hstep) _ IH]; [apply rtc_refl|].
  eapply rtc_l; [exists i; exact Hstep | exact IH].
Qed.

Lemma destroy_quiet p (w' : W) : quiet p -> destroy lib p w' -> w' = world p.
Proof.
  intros Hquiet (p' & Hfinish & _ & ->).
  apply (quiet_steps p p' Hquiet (finish_steps p p' Hfinish)).
Qed.

(** With no task left the destructor finds nothing to wait for. *)
Lemma destroy_nothing_pending p (w' : W) :
  pending p = [] -> destroy lib p w' <-> w' = world p.
Proof.
  intros Hnone. split.
  - intros (p' & Hfinish & _ & ->).
    destruct Hfinish as [|p p1 p' (i & t & Hw & _) _]; [reflexivity|].
    apply running_lookup in Hw.
    assert (Hin : t ∈ pending p) by (apply elem_of_app; right; exact Hw).
    rewrite Hnone in Hin. inversion Hin.
  - intros ->. exists p. split; [apply rtc_refl|]. split; [|reflexivity].
    unfold pending in Hnone. apply app_eq_nil in Hnone. apply Hnone.
Qed.

(** When every unfinished task belongs to one future and that future is
    resolved, no task is left. *)
Lemma resolved_only f p :
  wf p -> (forall t, t ∈ pending p -> task_id t = f) ->
  is_Some (slots p !! f) -> pending p = [].
Proof.
  intros (_ & Hpend & _) Honly [o Ho].
  destruct (pending p) as [|t ts] eqn:Hp; [reflexivity|].
  assert (Hin : t ∈ t :: ts) by left.
  destruct (Hpend t Hin) as [_ Hnone]. rewrite (Honly t Hin) in Hnone. congruence.
Qed.

Lemma only_step f p p' :
  (forall t, t ∈ pending p -> task_id t = f) -> step lib p p' ->
  forall t, t ∈ pending p' -> task_id t = f.
Proof.
  intros Honly Hstep.
  apply (pending_step (fun t => task_id t = f) p p'); [|exact Hstep|exact Honly].
  intros id b b' c w w' Hid _. exact Hid.
Qed.

Lemma only_steps f p p' :
  (forall t, t ∈ pending p -> task_id t = f) -> steps lib p p' ->
  forall t, t ∈ pending p' -> task_id t = f.
Proof. intros Honly Hsteps. induction Hsteps; eauto using only_step. Qed.

(** *** A pool with one task *)

Lemma sole_submit n (w : W) b :
  sole lib 0 false (run_body lib false b w) (submit (new_pool n w) b).1.
Proof.
  left. exists b. unfold pending. simpl. rewrite running_replicate_idle.
  repeat split; reflexivity.
Qed.

Lemma sole_step f c (R : outcome A * W) p p' :
  sole lib f c R p -> step lib p p' -> sole lib f c R p'.
Proof.
  intros Hsole Hstep.
  destruct (step_frame lib p p' Hstep) as (_ & Hfl & _).
  assert (Hflag : flag p' f = flag p f) by (unfold flag; rewrite Hfl; reflexivity).
  destruct (step_cases lib p p' Hstep)
    as [Hperm Hq Hs Hw | id b b' others Hp Hp' Hq Hs Hbody | id o Hp Hq Hs Hw].
  - destruct Hsole as [(b & Hpend & Hslot & Hc & Hrun)|(Hpend & _)].
    + left. exists b. rewrite Hpend in Hperm.
      apply Permutation_singleton_r in Hperm.
      rewrite Hs, Hw, Hflag. auto.
    + unfold pending in Hpend. apply app_eq_nil in Hpend as [Hempty _].
      rewrite Hempty in Hq. simpl in Hq. lia.
  - destruct Hsole as [(b0 & Hpend & Hslot & Hc & Hrun)|(Hpend & _)].
    + rewrite Hpend in Hp. apply Permutation_singleton_l in Hp.
      injection Hp as Hid Hb Hothers. subst id b others.
      left. exists b'. apply Permutation_singleton_r in Hp'.
      rewrite Hs, Hflag. repeat split; try assumption.
      rewrite <- Hrun. rewrite Hc in Hbody. apply (run_body_step lib _ _ _ _ _ Hbody).
    + rewrite Hpend in Hp. apply Permutation_nil_cons in Hp. destruct Hp.
  - destruct Hsole as [(b0 & Hpend & Hslot & Hc & Hrun)|(Hpend & _)].
    + rewrite Hpend in Hp. apply Permutation_singleton_l in Hp.
      injection Hp as Hid Hb Hnone. subst id b0. right.
      simpl in Hrun. subst R. simpl.
      split; [symmetry; exact Hnone|].
      split; [rewrite Hs; apply lookup_insert_eq | exact Hw].
    + rewrite Hpend in Hp. apply Permutation_nil_cons in Hp. destruct Hp.
Qed.

Lemma sole_steps f c (R : outcome A * W) p p' :
  sole lib f c R p -> steps lib p p' -> sole lib f c R p'.
Proof. intros Hsole Hsteps. induction Hsteps; eauto using sole_step. Qed.

Lemma sole_get f c (R : outcome A * W) p (o : outcome A) :
  sole lib f c R p -> get p f = Some o ->
  o = R.1 /\ world p = R.2 /\ pending p = [].
Proof.
  unfold get. intros [(b & _ & Hslot & _)|(Hpend & Hslot & Hw)] Hget; [congruence|].
  split; [congruence|]. split; assumption.
Qed.

(** *** Blocking [get()] calls in a row *)

Lemma get_each_tracks p futures (bs : list (body A)) p' outs :
  get_each lib p futures p' outs ->
  wf p ->
  Forall2 (fun f b => tracks lib f (outcomes lib false b) p) futures bs ->
  Forall2 (fun o b => outcomes lib false b o) outs bs.
Proof.
  intros Hgets. revert bs.
  induction Hgets as [p | p p1 f o futures p' outs Hsteps Hget _ IH];
    intros bs Hwf Htracks.
  - inversion Htracks. constructor.
  - inversion Htracks as [|? b ? bs' Hf Hrest]; subst.
    pose proof (wf_steps lib p p1 Hwf Hsteps) as Hwf1.
    pose proof (tracks_steps lib f _ p p1 Hwf Hsteps Hf) as Hf1.
    constructor; [exact (tracks_get lib f _ o p1 Hwf1 Hf1 Hget)|].
    apply IH; [exact Hwf1|].
    apply (Forall2_impl _ _ _ _ Hrest). intros f' b'.
    apply tracks_steps; assumption.
Qed.

Lemma get_each_resolved p futures (outs : list (outcome A)) :
  Forall2 (fun f o => get p f = Some o) futures outs ->
  get_each lib p futures p outs.
Proof.
  induction 1 as [|f o futures outs Hget _ IH]; [constructor|].
  apply (get_each_cons lib p p f o futures p outs);
    [apply rtc_refl | exact Hget | exact IH].
Qed.

Lemma get_each_after p p' futures (outs : list (outcome A)) :
  steps lib p p' -> get_each lib p' futures p' outs ->
  exists p'', get_each lib p futures p'' outs.
Proof.
  intros Hsteps Hgets. inversion Hgets as [|? p1 f o fs ? os Hs Hget Hrest]; subst.
  - exists p. constructor.
  - exists p'. apply (get_each_cons lib p p1 f o fs p' os);
      [etrans; eauto | exact Hget | exact Hrest].
Qed.

End WithResult.

(** *** The demos *)

Section Demos.
Context {W Level : Type} (lib : Lib W Level).

Lemma cancelable_loop_ends_in (n : nat) :
  forall i : Z, 0 <= i -> i + Z.of_nat n <= 1000 ->
  ends_in lib (cancelable_outcome lib) (cancelable_loop n i).
Proof.
  induction n as [|n IH]; intros i Hi Hn; simpl.
  - constructor. right. left. reflexivity.
  - constructor. intros [|].
    + constructor.
      * intros w e w' Hlog. right. right. exists e, i, w, w'.
        split; [lia|]. split; [exact Hlog | reflexivity].
      * constructor. left. reflexivity.
    + constructor. apply IH; lia.
Qed.

(** X10.  [demo_exception_handling] does the same in every schedule: it
    logs its heading; the task logs its line and throws "Task failed!",
    or ends with the exception of its line; [get()] throws in the
    caller what the task ended with, and the handler logs it when it is
    a [std::exception].  So the demo comes to what these calls come to
    one after the other in one thread; it never logs a result. *)
Theorem demo_exception_handling_catches (w : W) (r : outcome unit * W) :
  demo_exception_handling lib w r <->
  r = (log_info lib "\n=== Demo 5: Exception Handling ===" [] ;;
       try_catch_std
         (log_info lib "Task throwing exception..." [] ;;
          throw (StdException "Task failed!"))
         (fun what => log_error lib "Caught exception: {}" [ArgStr what])) w.
Proof.
  unfold demo_exception_handling, mbind, M_bind, bind.
  destruct (log_info lib "\n=== Demo 5: Exception Handling ===" [] w)
    as [[u|e] w1]; [|reflexivity].
  set (submitted := submit (new_pool 4 w1) throwing_task).
  pose proof (sole_submit lib 4 w1 throwing_task) as Hsole.
  fold submitted in Hsole.
  assert (Hrun : forall p2 delivered,
             steps lib submitted.1 p2 -> get p2 submitted.2 = Some delivered ->
             pending p2 = [] /\
             try_catch_std
               (fun w0 =>
                  match deliver delivered w0 with
                  | (Value a, w') => log_info lib "Result: {}" [ArgInt a] w'
                  | (Error e, w') => (Error e, w')
                  end)
               (fun what => log_error lib "Caught exception: {}" [ArgStr what])
               (world p2)
             = try_catch_std
                 (fun w0 =>
                    match log_info lib "Task throwing exception..." [] w0 with
                    | (Value _, w') => throw (StdException "Task failed!") w'
                    | (Error e, w') => (Error e, w')
                    end)
                 (fun what => log_error lib "Caught exception: {}" [ArgStr what])
                 w1).
  { intros p2 delivered Hsteps Hget.
    destruct (sole_get lib _ _ _ p2 delivered
                (sole_steps lib _ _ _ _ p2 Hsole Hsteps) Hget)
      as (Ho & Hw & Hpend).
    split; [exact Hpend|].
    unfold try_catch_std, deliver, throw. rewrite Ho, Hw. simpl.
    destruct (log_info lib "Task throwing exception..." [] w1) as [[u1|e1] w2];
      reflexivity. }
  split.
  - intros (p2 & delivered & w' & Hsteps & Hget & Hdestroy & ->).
    destruct (Hrun p2 delivered Hsteps Hget) as [Hpend Heq].
    apply (destroy_nothing_pending lib) in Hdestroy; [|exact Hpend].
    subst w'. rewrite <- Heq. symmetry. apply surjective_pairing.
  - intros ->.
    destruct (run_ends lib submitted.1) as (p2 & Hsteps & Hq).
    pose proof (sole_steps lib _ _ _ _ p2 Hsole Hsteps) as Hsole2.
    assert (Hpend : pending p2 = []).
    { apply (quiescent_pending lib); [|exact Hq].
      apply (steps_workers_nonempty lib _ p2 Hsteps). discriminate. }
    assert (Hget : exists delivered, get p2 submitted.2 = Some delivered).
    { destruct Hsole2 as [(b & Hb & _)|(_ & Hslot & _)]; [congruence|eauto]. }
    destruct Hget as [delivered Hget].
    destruct (Hrun p2 delivered Hsteps Hget) as [_ Heq].
    exists p2, delivered. eexists.
    split; [exact Hsteps|]. split; [exact Hget|].
    split; [apply (destroy_nothing_pending lib); [exact Hpend | reflexivity]|].
    rewrite <- Heq. apply surjective_pairing.
Qed.

(** X11.  [demo_task_cancellation] in every schedule: unless one of the
    two lines the caller logs before [get()] throws, [get()] delivers
    -1 or 1000, or throws the exception of the line the task logs when
    it sees the flag, and the demo goes on from there: it logs the
    result that was returned, or the exception leaves it. *)
Theorem demo_task_cancellation_result (w : W) (r : outcome unit * W) :
  demo_task_cancellation lib w r ->
  (exists e w',
      r.1 = Error e /\
      (log_info lib "\n=== Demo 4: Task Cancellation ===" [] w = (Error e, w') \/
       exists w2, log_info lib "Cancellation requested" [] w2 = (Error e, w'))) \/
  (exists delivered w4,
      cancelable_outcome lib delivered /\
      r = (result ← deliver delivered;
           log_info lib "Task result: {}" [ArgInt result]) w4).
Proof.
  unfold demo_task_cancellation, submit_cancelable.
  destruct (log_info lib "\n=== Demo 4: Task Cancellation ===" [] w)
    as [[u|e] w1]; [|intros ->; left; exists e, w1; auto].
  set (submitted := submit (new_pool 4 w1) cancelable_task).
  intros (p2 & p3 & w' & Hsteps2 & Hsteps3 & Hrest).
  destruct (log_info lib "Cancellation requested" [] (world p3))
    as [[u2|e] w2] eqn:Hlog.
  2:{ destruct Hrest as [_ ->]. left. exists e, w2. split; [reflexivity|].
      right. exists (world p3). exact Hlog. }
  destruct Hrest as (p4 & delivered & Hsteps4 & Hget & Hdestroy & ->).
  right. exists delivered, (world p4).
  pose proof (wf_new_pool (A := Z) 4 w1) as Hwf0.
  pose proof (wf_submit _ cancelable_task Hwf0) as Hwf1. fold submitted in Hwf1.
  pose proof (wf_steps lib _ p2 Hwf1 Hsteps2) as Hwf2.
  assert (Hwfc : wf (cancel p2 submitted.2)).
  { apply wf_cancel; [|exact Hwf2].
    destruct (steps_frame lib _ p2 Hsteps2) as (_ & _ & ->). simpl. lia. }
  pose proof (wf_steps lib _ p3 Hwfc Hsteps3) as Hwf3.
  pose proof (wf_steps lib _ p4 (wf_set_world p3 w2 Hwf3) Hsteps4) as Hwf4.
  assert (Hends : all_end_in lib (cancelable_outcome lib) p4).
  { eapply (all_end_in_steps lib); [|exact Hsteps4].
    apply all_end_in_set_world.
    eapply (all_end_in_steps lib); [|exact Hsteps3].
    apply all_end_in_cancel.
    eapply (all_end_in_steps lib); [|exact Hsteps2].
    apply all_end_in_submit; [|apply all_end_in_new_pool].
    apply (cancelable_loop_ends_in 1000 0); lia. }
  assert (Honly : forall t, t ∈ pending p4 -> task_id t = submitted.2).
  { eapply (only_steps lib); [|exact Hsteps4].
    change (pending (set_world p3 w2)) with (pending p3).
    eapply (only_steps lib); [|exact Hsteps3].
    change (pending (cancel p2 submitted.2)) with (pending p2).
    eapply (only_steps lib); [|exact Hsteps2].
    intros t Ht. unfold submitted in Ht. rewrite pending_submit in Ht.
    apply elem_of_cons in Ht as [->|Ht]; [reflexivity|].
    inversion Ht. }
  split; [apply (proj2 Hends _ _ Hget)|].
  assert (Hpend : pending p4 = []).
  { apply (resolved_only submitted.2); [exact Hwf4|exact Honly|].
    unfold get in Hget. eauto. }
  apply (destroy_nothing_pending lib) in Hdestroy; [|exact Hpend].
  subst w'. symmetry. apply surjective_pairing.
Qed.
End Demos.

(** A run of [demo_task_cancellation]: worker 2 takes the task and is
    in its third iteration when [cancel()] is called; the caller logs
    its line; the task sees the flag, logs the iteration and returns
    -1. *)
Lemma demo_task_cancellation_result_witness :
  exists r,
    demo_task_cancellation Worlds.quiet_lib [] r /\
    r = (Value tt,
         [ ("info: Task result: {}", [ArgInt (-1)]);
           ("info: Task cancelled at iteration {}", [ArgInt 2]);
           ("info: Cancellation requested", []);
           ("info: \n=== Demo 4: Task Cancellation ===", []) ]) /\
    exists delivered w4,
      cancelable_outcome Worlds.quiet_lib delivered /\
      r = (result ← deliver delivered;
           log_info Worlds.quiet_lib "Task result: {}" [ArgInt result]) w4.
Proof.
  set (w1 := [("info: \n=== Demo 4: Task Cancellation ===", [])] : Worlds.trace).
  set (p1 := (submit_cancelable (new_pool 4 w1) cancelable_task).1).
  set (p2 := run_schedule Worlds.quiet_lib [2; 2; 2; 2; 2]%nat p1).
  set (p3 := cancel p2 0%nat).
  set (w2 := ("info: Cancellation requested", []) :: w1 : Worlds.trace).
  set (p4 := run_schedule Worlds.quiet_lib [2; 2; 2]%nat (set_world p3 w2)).
  assert (Hrun : demo_task_cancellation Worlds.quiet_lib []
            (Value tt, ("info: Task result: {}", [ArgInt (-1)]) :: world p4)).
  { exists p2, p3. eexists.
    split; [apply run_schedule_steps|]. split; [apply rtc_refl|].
    exists p4, (Value (-1)).
    split; [apply run_schedule_steps|]. split; [reflexivity|].
    split; [|reflexivity].
    apply (destroy_nothing_pending Worlds.quiet_lib); reflexivity. }
  eexists. split; [exact Hrun|]. split; [reflexivity|].
  destruct (demo_task_cancellation_result Worlds.quiet_lib [] _ Hrun)
    as [(e & w' & He & _)|Hdelivered]; [discriminate He | exact Hdelivered].
Defined.

(** With a library that cannot write the line of the task, [get()]
    throws in the caller and the exception leaves the demo. *)
Example demo_task_cancellation_rethrows :
  demo_task_cancellation (Worlds.failing_on "Task cancelled at iteration {}") []
    (Error (StdException "log sink unavailable"),
     [ ("info: Cancellation requested", []);
       ("info: \n=== Demo 4: Task Cancellation ===", []) ]).
Proof.
  set (lib := Worlds.failing_on "Task cancelled at iteration {}").
  set (w1 := [("info: \n=== Demo 4: Task Cancellation ===", [])] : Worlds.trace).
  set (p1 := (submit_cancelable (new_pool 4 w1) cancelable_task).1).
  set (p2 := run_schedule lib [2; 2; 2; 2; 2]%nat p1).
  set (p3 := cancel p2 0%nat).
  set (w2 := ("info: Cancellation requested", []) :: w1 : Worlds.trace).
  set (p4 := run_schedule lib [2; 2; 2]%nat (set_world p3 w2)).
  exists p2, p3. eexists.
  split; [apply run_schedule_steps|]. split; [apply rtc_refl|].
  exists p4, (Error (StdException "log sink unavailable")).
  split; [apply run_schedule_steps|]. split; [reflexivity|].
  split; [|reflexivity].
  apply (destroy_nothing_pending lib); reflexivity.
Qed.

(** With a library that cannot write the line of the throwing task,
    [demo_exception_handling] catches the exception of that line. *)
Example demo_exception_handling_catches_the_log :
  demo_exception_handling (Worlds.failing_on "Task throwing exception...") []
    (Value tt,
     [ ("error: Caught exception: {}", [ArgStr "log sink unavailable"]);
       ("info: \n=== Demo 5: Exception Handling ===", []) ]).
Proof.
  set (lib := Worlds.failing_on "Task throwing exception...").
  set (w1 := [("info: \n=== Demo 5: Exception Handling ===", [])] : Worlds.trace).
  set (p2 := run_schedule lib [0; 0; 0]%nat (submit (new_pool 4 w1) throwing_task).1).
  exists p2, (Error (StdException "log sink unavailable")). eexists.
  split; [apply run_schedule_steps|]. split; [reflexivity|].
  split; [|reflexivity].
  apply (destroy_nothing_pending lib); reflexivity.
Qed.

(** With a library that writes every line, the demo logs three lines:
    its heading, the line of the task, and the exception it caught. *)
Example demo_exception_handling_logs_three_lines :
  demo_exception_handling Worlds.quiet_lib []
    (Value tt,
     [ ("error: Caught exception: {}", [ArgStr "Task failed!"]);
       ("info: Task throwing exception...", []);
       ("info: \n=== Demo 5: Exception Handling ===", []) ]).
Proof.
  set (w1 := [("info: \n=== Demo 5: Exception Handling ===", [])] : Worlds.trace).
  set (p2 := run_schedule Worlds.quiet_lib [0; 0; 0]%nat
               (submit (new_pool 4 w1) throwing_task).1).
  exists p2, (Error (StdException "Task failed!")). eexists.
  split; [apply run_schedule_steps|]. split; [reflexivity|].
  split; [|reflexivity].
  apply (destroy_nothing_pending Worlds.quiet_lib); reflexivity.
Qed.

(** *** [demo_batch_processing] and [demo_parallel_processing] *)

Section Batch.
Context {W Level : Type} (lib : Lib W Level).

Lemma no_log_map_task {X A} (fn : X -> A) (collection : list X) :
  Forall no_log (map_task fn <$> collection).
Proof. apply Forall_fmap, Forall_forall. intros x _. exact I. Qed.

(** What [parallel_map] returns for the squares, and the world it
    leaves: the one it was called in. *)
Lemma parallel_map_squares (w1 : W) (p' : pool Z W) (results : list Z) :
  parallel_map_returns lib (new_pool 8 w1) (seqZ 1 1000) (map_task square) p' results ->
  results = square <$> seqZ 1 1000 /\ quiet p' /\ world p' = w1.
Proof.
  intros (futures & Hall & Hgather).
  destruct (submit_all_tracks lib _ _ _ _ Hall (wf_new_pool 8 w1))
    as (Hwf' & Htracks & _).
  pose proof (gather_tracks lib p' futures _ _ Hwf' Htracks Hgather) as Hres.
  apply outcomes_map_task, fmap_Value_inj in Hres.
  destruct (submit_all_quiet lib _ _ _ _ Hall (quiet_new_pool 8 w1)
              (no_log_map_task square (seqZ 1 1000))) as [Hquiet Hw].
  auto.
Qed.

Lemma parallel_map_squares_returns (w1 : W) :
  exists p',
    parallel_map_returns lib (new_pool 8 w1) (seqZ 1 1000) (map_task square) p'
      (square <$> seqZ 1 1000) /\
    quiescent lib p'.
Proof.
  destruct (submit_all_exists lib (map_task square <$> seqZ 1 1000) (new_pool 8 w1))
    as (p1 & futures & Hall).
  destruct (run_ends lib p1) as (p2 & Hsteps & Hq).
  pose proof (submit_all_steps lib _ _ _ _ _ Hall Hsteps) as Hall2.
  destruct (submit_all_tracks lib _ _ _ _ Hall2 (wf_new_pool 8 w1))
    as (Hwf2 & Htracks & _).
  assert (Hws : workers p2 <> []).
  { intros Hnil. pose proof (submit_all_workers lib _ _ _ _ Hall2) as Hlen.
    rewrite Hnil in Hlen. discriminate. }
  destruct (gather_quiescent lib p2 futures _ Hws Hq Htracks)
    as (results & Hgather & Hres).
  apply outcomes_map_task in Hres. subst results.
  exists p2. split; [|exact Hq]. exists futures. split; assumption.
Qed.

(** X18.  [demo_batch_processing] in every schedule: [parallel_map]
    returns the 1000 squares 1, 4, ..., 1000000 in the order of the
    input, none of which overflows [int], and its tasks leave the world
    as it is; the ten entries the demo reads are inside the vector, and
    it logs 1, 4, 9, ..., 100. *)
Theorem demo_batch_processing_squares (w : W) (r : outcome unit * W) :
  demo_batch_processing lib w r ->
  (forall w1,
      (exists p' results,
          parallel_map_returns lib (new_pool 8 w1) (seqZ 1 1000) (map_task square)
            p' results) /\
      (forall p' results,
          parallel_map_returns lib (new_pool 8 w1) (seqZ 1 1000) (map_task square)
            p' results ->
          results = square <$> seqZ 1 1000 /\
          length results = 1000%nat /\
          Forall (fun x => 1 <= x <= 1000000 /\ x <= INT_MAX) results /\
          world p' = w1)) /\
  exists duration : Z,
    r = (log_info lib "\n=== Demo 3: Batch Processing ===" [] ;;
         log_info lib "Processed {} elements in {} µs"
           [ArgInt 1000; ArgInt duration] ;;
         log_info lib
           "First 10 results: [{}, {}, {}, {}, {}, {}, {}, {}, {}, {}]"
           (ArgInt <$> [1; 4; 9; 16; 25; 36; 49; 64; 81; 100])) w.
Proof.
  intros Hdemo. split.
  - intros w1. split.
    + destruct (parallel_map_squares_returns w1) as (p' & Hret & _). eauto.
    + intros p' results Hret.
      destruct (parallel_map_squares w1 p' results Hret) as (-> & _ & Hw).
      split; [reflexivity|]. split; [reflexivity|]. split; [|exact Hw].
      apply Forall_fmap, Forall_forall. intros x Hx.
      apply elem_of_seqZ in Hx. unfold square, INT_MAX. simpl. nia.
  - unfold demo_batch_processing in Hdemo. unfold mbind, M_bind, bind at 1.
    destruct (log_info lib "\n=== Demo 3: Batch Processing ===" [] w)
      as [[u|e] w1]; [|exists 0; exact Hdemo].
    destruct Hdemo as (p' & results & duration & w' & Hret & Hdestroy & ->).
    destruct (parallel_map_squares w1 p' results Hret) as (-> & Hquiet & Hw).
    apply (destroy_quiet lib) in Hdestroy; [|exact Hquiet].
    subst w'. rewrite Hw. exists duration. symmetry. apply surjective_pairing.
Qed.
End Batch.

Lemma demo_batch_processing_squares_witness :
  exists r,
    demo_batch_processing Worlds.quiet_lib [] r /\
    exists duration : Z,
      r = (log_info Worlds.quiet_lib "\n=== Demo 3: Batch Processing ===" [] ;;
           log_info Worlds.quiet_lib "Processed {} elements in {} µs"
             [ArgInt 1000; ArgInt duration] ;;
           log_info Worlds.quiet_lib
             "First 10 results: [{}, {}, {}, {}, {}, {}, {}, {}, {}, {}]"
             (ArgInt <$> [1; 4; 9; 16; 25; 36; 49; 64; 81; 100])) [].
Proof.
  set (w1 := [("info: \n=== Demo 3: Batch Processing ===", [])] : Worlds.trace).
  destruct (parallel_map_squares_returns Worlds.quiet_lib w1) as (p2 & Hret & Hq).
  set (logged :=
         (log_info Worlds.quiet_lib "Processed {} elements in {} µs"
            [ArgInt (Z.of_nat (length (seqZ 1 1000))); ArgInt 250] ;;
          log_info Worlds.quiet_lib
            "First 10 results: [{}, {}, {}, {}, {}, {}, {}, {}, {}, {}]"
            ((fun i => ArgInt (ErrorHandlingMain.vec_at (square <$> seqZ 1 1000) i))
               <$> seqZ 0 10)) (world p2)).
  assert (Hrun : demo_batch_processing Worlds.quiet_lib [] (logged.1, logged.2)).
  { exists p2, (square <$> seqZ 1 1000), 250, logged.2.
    split; [exact Hret|]. split; [|reflexivity].
    exists (set_world p2 logged.2). split; [apply rtc_refl|].
    split; [|reflexivity].
    change (running (workers p2) = []).
    apply running_all_idle, (quiescent_idle Worlds.quiet_lib), Hq. }
  eexists. split; [exact Hrun|].
  apply (proj2 (demo_batch_processing_squares Worlds.quiet_lib [] _ Hrun)).
Defined.

Section ParallelProcessing.
Variables sin cos : float -> float.
Context {W Level : Type} (lib : Lib W Level).

(** The tasks and the sequential results of [demo_parallel_processing],
    given what the call of [expensive_computation] returns. *)
Lemma processing_tasks (v : float) (inputs : list Z) :
  expensive_computation sin cos WORK_SIZE = Returns v ->
  mapM (processing_task sin cos) inputs
  = Some (map_task (fun _ : Z => v) <$> inputs) /\
  mapM (fun _ : Z => returned (expensive_computation sin cos WORK_SIZE)) inputs
  = Some ((fun _ : Z => v) <$> inputs).
Proof.
  intros Hv. split; apply mapM_Some_2.
  - induction inputs as [|x inputs IH]; constructor; [|exact IH].
    unfold processing_task. rewrite Hv. reflexivity.
  - induction inputs as [|x inputs IH]; constructor; [|exact IH].
    rewrite Hv. reflexivity.
Qed.

Lemma work_size_returns :
  exists v, expensive_computation sin cos WORK_SIZE = Returns v.
Proof. apply expensive_computation_returns. unfold WORK_SIZE, INT_MAX. lia. Qed.

(** X12.  In [demo_parallel_processing] the parallel results equal the
    sequential results, entry by entry, in every schedule and for every
    number of workers: both vectors hold [NUM_TASKS] = 100 copies of
    what [expensive_computation(WORK_SIZE)] returns, the input of a task
    not being used.  With at least one worker the loop of [get()] calls
    comes to its end in every schedule: after the submissions every run
    of the workers is finite and can be continued to one that ends, and
    at the end of each every [get()] returns at once. *)
Theorem demo_parallel_processing_agrees (w : W) (hardware_concurrency : nat) :
  (forall seq_results par_results,
      demo_parallel_processing_results sin cos lib w hardware_concurrency
        seq_results par_results ->
      par_results = seq_results /\
      length par_results = 100%nat /\
      exists v,
        expensive_computation sin cos WORK_SIZE = Returns v /\
        Forall (fun x => x = v) par_results) /\
  ((0 < hardware_concurrency)%nat ->
   (exists seq_results par_results,
       demo_parallel_processing_results sin cos lib w hardware_concurrency
         seq_results par_results) /\
   forall tasks p1 futures,
     mapM (processing_task sin cos) (seqZ 1 NUM_TASKS) = Some tasks ->
     submit_all lib (new_pool hardware_concurrency w) tasks p1 futures ->
     (forall n p', nsteps (step lib) n p1 p' -> (n <= measure p1)%nat) /\
     forall p', steps lib p1 p' ->
       (exists p'', steps lib p' p'' /\ quiescent lib p'') /\
       (quiescent lib p' ->
        exists par_results,
          get_each lib p' futures p' (Value <$> par_results) /\
          demo_parallel_processing_results sin cos lib w hardware_concurrency
            par_results par_results)).
Proof.
  destruct work_size_returns as [v Hv].
  destruct (processing_tasks v (seqZ 1 NUM_TASKS) Hv) as [Htasks Hseq].
  assert (Hall_tracks : forall tasks p1 futures p',
             mapM (processing_task sin cos) (seqZ 1 NUM_TASKS) = Some tasks ->
             submit_all lib (new_pool hardware_concurrency w) tasks p1 futures ->
             steps lib p1 p' ->
             wf p' /\
             length (workers p') = hardware_concurrency /\
             Forall2 (fun f b => tracks lib f (outcomes lib false b) p') futures
               (map_task (fun _ : Z => v) <$> seqZ 1 NUM_TASKS)).
  { intros tasks p1 futures p' Hmap Hall Hsteps.
    rewrite Htasks in Hmap. injection Hmap as <-.
    pose proof (submit_all_steps lib _ _ _ _ _ Hall Hsteps) as Hall'.
    destruct (submit_all_tracks lib _ _ _ _ Hall'
                (wf_new_pool hardware_concurrency w)) as (Hwf' & Htracks & _).
    split; [exact Hwf'|]. split; [|exact Htracks].
    rewrite (submit_all_workers lib _ _ _ _ Hall'). simpl.
    apply length_replicate. }
  split.
  - intros seq_results par_results
      (Hseq' & tasks & p1 & futures & p2 & Hmap & Hall & Hgets).
    unfold demo_parallel_processing_results in *.
    rewrite Hseq in Hseq'. injection Hseq' as <-.
    destruct (Hall_tracks tasks p1 futures p1 Hmap Hall (rtc_refl _ _))
      as (Hwf1 & _ & Htracks).
    pose proof (get_each_tracks lib _ _ _ _ _ Hgets Hwf1 Htracks) as Houts.
    apply outcomes_map_task, fmap_Value_inj in Houts. subst par_results.
    split; [reflexivity|]. split.
    + rewrite length_fmap, length_seqZ. reflexivity.
    + exists v. split; [exact Hv|].
      apply Forall_fmap, Forall_forall. intros x _. reflexivity.
  - intros Hworkers.
    assert (Hend : forall tasks p1 futures p',
               mapM (processing_task sin cos) (seqZ 1 NUM_TASKS) = Some tasks ->
               submit_all lib (new_pool hardware_concurrency w) tasks p1 futures ->
               steps lib p1 p' -> quiescent lib p' ->
               get_each lib p' futures p'
                 (Value <$> ((fun _ : Z => v) <$> seqZ 1 NUM_TASKS)) /\
               demo_parallel_processing_results sin cos lib w hardware_concurrency
                 ((fun _ : Z => v) <$> seqZ 1 NUM_TASKS)
                 ((fun _ : Z => v) <$> seqZ 1 NUM_TASKS)).
    { intros tasks p1 futures p' Hmap Hall Hsteps Hq.
      destruct (Hall_tracks tasks p1 futures p' Hmap Hall Hsteps)
        as (Hwf' & Hlen & Htracks).
      assert (Hws : workers p' <> []).
      { intros Hnil. rewrite Hnil in Hlen. simpl in Hlen. lia. }
      destruct (gather_quiescent lib p' futures _ Hws Hq Htracks)
        as (results & Hgather & Hres).
      apply outcomes_map_task in Hres. subst results.
      apply mapM_Some_1 in Hgather.
      pose proof (get_each_resolved lib p' _ _ Hgather) as Hgets.
      split; [exact Hgets|]. split; [exact Hseq|].
      destruct (get_each_after lib p1 p' futures _ Hsteps Hgets) as (p3 & Hgets3).
      exists tasks, p1, futures, p3. auto. }
    split.
    + destruct (submit_all_exists lib (map_task (fun _ : Z => v) <$> seqZ 1 NUM_TASKS)
                  (new_pool hardware_concurrency w)) as (p1 & futures & Hall).
      destruct (run_ends lib p1) as (p2 & Hsteps & Hq).
      destruct (Hend _ p1 futures p2 Htasks Hall Hsteps Hq) as [_ Hresults].
      eauto.
    + intros tasks p1 futures Hmap Hall.
      split; [intros n p' Hn; pose proof (nsteps_bounded lib n p1 p' Hn); lia|].
      intros p' Hsteps. split; [apply run_ends|].
      intros Hq. eexists. apply (Hend tasks p1 futures p' Hmap Hall Hsteps Hq).
Qed.
End ParallelProcessing.

Lemma demo_parallel_processing_agrees_witness :
  exists seq_results par_results,
    demo_parallel_processing_results (fun x => x) (fun x => x) Worlds.quiet_lib []
      8 seq_results par_results.
Proof.
  apply (proj2 (demo_parallel_processing_agrees (fun x => x) (fun x => x)
                  Worlds.quiet_lib [] 8)).
  lia.
Defined.

End ThreadPoolDemoFacts.
Module ProcessMore.
Import Process ProcessFacts ThreadPoolDemo LibUpdate.

(** *** [main] of thread_pool_demo.cpp *)

Section ThreadPoolMain.
Context {W Level : Type} (lib : Lib W Level) (hc : Z).
Context (d1 d2 d3 d4 d5 d6 : M W unit).

Let prelude := ThreadPoolDemoMain.prelude lib hc.
Let run_demos := ThreadPoolDemoMain.run_demos lib d1 d2 d3 d4 d5 d6.
Let main := ThreadPoolDemoMain.main lib hc d1 d2 d3 d4 d5 d6.
Let closing_line : M W unit :=
  log_info lib "\n=== All demos completed successfully ===" [].

Lemma main_after_prelude (w w1 : W) :
  prelude w = (Value tt, w1) ->
  main w =
    match run_demos w1 with
    | (Value _, w2) => (Value 0, w2)
    | (Error (StdException what), w2) =>
        match log_error lib "Fatal error: {}" [ArgStr what] w2 with
        | (Value _, w3) => (Value 1, w3)
        | (Error e, w3) => (Error e, w3)
        end
    | (Error ForeignThrow, w2) => (Error ForeignThrow, w2)
    end.
Proof.
  intros Hpre.
  unfold main, ThreadPoolDemoMain.main, mbind, M_bind, bind, try_catch_std.
  fold prelude run_demos. rewrite Hpre.
  unfold mbind, M_bind, bind.
  destruct (run_demos w1) as [[[]|[what|]] w2]; try reflexivity.
  destruct (log_error lib "Fatal error: {}" [ArgStr what] w2) as [[[]|e] w3];
    reflexivity.
Qed.

Lemma main_prelude_throws (w w1 : W) (e : exn) :
  prelude w = (Error e, w1) -> main w = (Error e, w1).
Proof.
  intros Hpre.
  unfold main, ThreadPoolDemoMain.main, mbind, M_bind, bind.
  fold prelude. rewrite Hpre. reflexivity.
Qed.

(** X13.  When [main] of thread_pool_demo.cpp returns, it returns 0 or
    1, and nothing else. *)
Theorem thread_pool_main_returns_0_or_1 (w w' : W) (code : Z) :
  main w = (Value code, w') -> code = 0 \/ code = 1.
Proof.
  destruct (prelude w) as [[[]|e] w1] eqn:Hpre.
  - rewrite (main_after_prelude w w1 Hpre).
    destruct (run_demos w1) as [[[]|[what|]] w2]; [| |discriminate].
    + intros [= <- _]. auto.
    + destruct (log_error lib "Fatal error: {}" [ArgStr what] w2) as [[[]|e] w3];
        [|discriminate].
      intros [= <- _]. auto.
  - rewrite (main_prelude_throws w w1 e Hpre). discriminate.
Qed.

(** X14.  What the handler of [main] does not catch: an exception
    thrown before the [try] block, by [log::init] or by one of the two
    lines logged first (the demos are then not run); an exception in the
    [try] block that is not a [std::exception]; and an exception thrown
    by the [log::error] of the handler itself.  Each leaves [main]. *)
Theorem thread_pool_main_uncaught (w : W) :
  (forall e w1, prelude w = (Error e, w1) -> main w = (Error e, w1)) /\
  (forall w1 w2,
      prelude w = (Value tt, w1) ->
      run_demos w1 = (Error ForeignThrow, w2) ->
      main w = (Error ForeignThrow, w2)) /\
  (forall what e w1 w2 w3,
      prelude w = (Value tt, w1) ->
      run_demos w1 = (Error (StdException what), w2) ->
      log_error lib "Fatal error: {}" [ArgStr what] w2 = (Error e, w3) ->
      main w = (Error e, w3)).
Proof.
  split; [|split].
  - intros e w1. apply main_prelude_throws.
  - intros w1 w2 Hpre Hdemos. rewrite (main_after_prelude w w1 Hpre), Hdemos.
    reflexivity.
  - intros what e w1 w2 w3 Hpre Hdemos Hlog.
    rewrite (main_after_prelude w w1 Hpre), Hdemos, Hlog. reflexivity.
Qed.

Lemma run_demos_run_each (w : W) :
  run_demos w = run_each [d1; d2; d3; d4; d5; d6; closing_line] w.
Proof.
  unfold run_demos, ThreadPoolDemoMain.run_demos, run_each, mbind, M_bind, bind.
  destruct (d1 w) as [[[]|?] w1]; [|reflexivity].
  destruct (d2 w1) as [[[]|?] w2]; [|reflexivity].
  destruct (d3 w2) as [[[]|?] w3]; [|reflexivity].
  destruct (d4 w3) as [[[]|?] w4]; [|reflexivity].
  destruct (d5 w4) as [[[]|?] w5]; [|reflexivity].
  destruct (d6 w5) as [[[]|?] w6]; [|reflexivity].
  fold closing_line. destruct (closing_line w6) as [[[]|?] w7]; reflexivity.
Qed.

Lemma run_each_stops (before after : list (M W unit)) (failing : M W unit) :
  forall (w w1 w2 : W) (e : exn),
    run_each before w = (Value tt, w1) ->
    failing w1 = (Error e, w2) ->
    run_each (before ++ failing :: after) w = (Error e, w2).
Proof.
  induction before as [|d before IH]; intros w w1 w2 e Hbefore Hfail; simpl in *.
  - injection Hbefore as <-. unfold mbind, M_bind, bind. rewrite Hfail. reflexivity.
  - unfold mbind, M_bind, bind in *.
    destruct (d w) as [[[]|e'] w'] eqn:Hd; [|discriminate].
    apply (IH w' w1 w2 e Hbefore Hfail).
Qed.

(** X15.  The first call in the [try] block that throws ends the run of
    the demos: whichever of the six demos or the closing line it is,
    once those before it have returned, the block ends with its
    exception and in the state it left, and nothing behind it is run. *)
Theorem first_failing_demo_ends_the_run
    (before after : list (M W unit)) (failing : M W unit)
    (w w1 w2 : W) (e : exn) :
  [d1; d2; d3; d4; d5; d6; closing_line] = before ++ failing :: after ->
  run_each before w = (Value tt, w1) ->
  failing w1 = (Error e, w2) ->
  run_demos w = (Error e, w2).
Proof.
  intros Hsplit Hbefore Hfail.
  rewrite run_demos_run_each, Hsplit.
  apply (run_each_stops before after failing w w1 w2 e Hbefore Hfail).
Qed.
End ThreadPoolMain.

(** Returned by [main] when the fourth demo throws. *)
Lemma thread_pool_main_returns_0_or_1_witness : (1 : Z) = 0 \/ (1 : Z) = 1.
Proof.
  apply (thread_pool_main_returns_0_or_1 Worlds.quiet_lib 8
           (ret tt) (ret tt) (ret tt) Worlds.failing_demo (ret tt) (ret tt)
           [] [("error: Fatal error: {}", [ArgStr "Task failed!"]);
               ("info: Hardware Concurrency: {} threads\n", [ArgInt 8]);
               ("info: Thread Pool Demonstration", [])] 1).
  reflexivity.
Defined.

(** With a [log::info] that throws, the second call of [main] throws
    before the [try] block is entered. *)
Lemma thread_pool_main_uncaught_witness :
  ThreadPoolDemoMain.main Worlds.failing_log_lib 8
    (ret tt) (ret tt) (ret tt) (ret tt) (ret tt) (ret tt) []
  = (Error (StdException "log sink unavailable"), []).
Proof.
  apply (proj1 (thread_pool_main_uncaught Worlds.failing_log_lib 8
                  (ret tt) (ret tt) (ret tt) (ret tt) (ret tt) (ret tt) [])).
  reflexivity.
Defined.

(** The fourth demo throws in a world that had logged nothing: the
    fifth, the sixth and the closing line leave no trace. *)
Lemma first_failing_demo_ends_the_run_witness :
  ThreadPoolDemoMain.run_demos Worlds.quiet_lib
    (ret tt) (ret tt) (ret tt) Worlds.failing_demo
    (Worlds.emit "demo: " "five" []) (Worlds.emit "demo: " "six" []) []
  = (Error (StdException "Task failed!"), []).
Proof.
  apply (first_failing_demo_ends_the_run Worlds.quiet_lib
           (ret tt) (ret tt) (ret tt) Worlds.failing_demo
           (Worlds.emit "demo: " "five" []) (Worlds.emit "demo: " "six" [])
           [ret tt; ret tt; ret tt]
           [Worlds.emit "demo: " "five" []; Worlds.emit "demo: " "six" [];
            log_info Worlds.quiet_lib "\n=== All demos completed successfully ===" []]
           Worlds.failing_demo [] [] []); reflexivity.
Defined.

(** *** [main] of error_handling.cpp *)

(** X16.  [main] of error_handling.cpp never logs a warning, and the
    one error it logs is "Error: {}" with "Division by zero": it behaves
    the same with any other [log::warn], and with any other [log::error]
    that does the same on that one call. *)
Theorem error_handling_main_reports_one_error {W Level}
    (lib : Lib W Level) (w : W) :
  (forall warn,
      ErrorHandlingMain.main (with_log_warn lib warn) w
      = ErrorHandlingMain.main lib w) /\
  (forall error,
      error "Error: {}" [ArgStr "Division by zero"]
      = log_error lib "Error: {}" [ArgStr "Division by zero"] ->
      ErrorHandlingMain.main (with_log_error lib error) w
      = ErrorHandlingMain.main lib w).
Proof.
  split.
  - intros warn. reflexivity.
  - intros error Hsame.
    unfold ErrorHandlingMain.main, with_log_error, mbind, M_bind, bind.
    cbn. rewrite Hsame. reflexivity.
Qed.

End ProcessMore.

Module PriorityDemoFacts.
Import PriorityThreadPool PriorityThreadPoolFacts PriorityDemo.

Section WithCallable.
Context {L : Type}.
Implicit Types (p : pool L) (q : list (entry L)).

Lemma enqueue_perm (t : entry L) q : enqueue t q ≡ₚ t :: q.
Proof.
  induction q as [|u rest IH]; simpl; [reflexivity|].
  destruct (before u t); [|reflexivity].
  rewrite IH. apply Permutation_swap.
Qed.

(** Between the submissions and the steps nothing is lost and nothing
    is added: what has started, what is about to start and what is
    queued are, together, what they were and what was submitted. *)
Lemma submit_interleaved_started p (batch : list (Priority * L)) p' :
  submit_interleaved p batch p' ->
  length (workers p') = length (workers p) /\
  started p' ++ claimed (workers p') ++ (callable <$> queue p')
  ≡ₚ started p ++ claimed (workers p) ++ (callable <$> queue p) ++ batch.*2.
Proof.
  induction 1 as [p p' Hsteps | p p1 [l c] batch p' Hsteps _ [IHw IHs]].
  - destruct (prio_steps_frame p p' Hsteps) as [Hw Hs].
    split; [exact Hw|]. rewrite Hs. simpl. rewrite app_nil_r. reflexivity.
  - destruct (prio_steps_frame p p1 Hsteps) as [Hw Hs].
    split; [rewrite IHw; exact Hw|].
    rewrite IHs.
    change (started p1 ++ claimed (workers p1)
            ++ (callable <$> enqueue (Entry l (next_seq p1) c) (queue p1))
            ++ batch.*2
            ≡ₚ started p ++ claimed (workers p)
               ++ (callable <$> queue p) ++ c :: batch.*2).
    rewrite enqueue_perm, fmap_cons.
    change (callable (Entry l (next_seq p1) c)) with c.
    rewrite <- app_comm_cons, <- !Permutation_middle. apply Permutation_skip.
    rewrite !(assoc_L (++)). rewrite !(assoc_L (++)) in Hs. rewrite Hs. reflexivity.
Qed.
End WithCallable.

Lemma four_idle_workers_quiescent {L} (p : pool L) :
  workers p = [Idle; Idle; Idle; Idle] -> queue p = [] -> quiescent p.
Proof.
  intros Hws Hq. apply prio_idle_quiescent; [|exact Hq].
  rewrite Hws. repeat constructor.
Qed.

(** X17.  [demo_priority_scheduling] runs on four workers: by the time
    [wait_all()] returns each of its four tasks has started exactly
    once, in every schedule; the order is not fixed, the priority order
    and the order of submission both being possible. *)
Theorem demo_priority_scheduling_starts_each_once :
  (forall order,
      demo_priority_scheduling order ->
      order ≡ₚ demo_submissions.*2 /\ NoDup order /\ length order = 4%nat) /\
  demo_priority_scheduling
    [ "Critical priority task (should run first)";
      "High priority task (should run first)";
      "Medium priority task";
      "Low priority task" ] /\
  demo_priority_scheduling
    [ "Low priority task";
      "High priority task (should run first)";
      "Medium priority task";
      "Critical priority task (should run first)" ].
Proof.
  split; [|split].
  - intros order (p' & Hall & Hq & ->).
    destruct (submit_interleaved_started _ _ _ Hall) as [Hlen Hperm].
    assert (Hws : workers p' <> []).
    { intros Hnil. rewrite Hnil in Hlen. discriminate. }
    rewrite (prio_quiescent_queue p' Hws Hq) in Hperm.
    rewrite (claimed_all_idle _ (prio_quiescent_idle p' Hq)) in Hperm.
    simpl in Hperm. rewrite app_nil_r in Hperm.
    split; [exact Hperm|]. split.
    + rewrite Hperm. simpl.
      repeat (apply NoDup_cons; split;
              [intros Hin;
               repeat (apply elem_of_cons in Hin as [Hin|Hin]; [discriminate Hin|]);
               inversion Hin|]).
      apply NoDup_nil. exact I.
    + rewrite Hperm. reflexivity.
  - exists (run_schedule (replicate 12 0%nat)
              (submit_batch (new_pool 4) demo_submissions)).
    split; [|split; [apply four_idle_workers_quiescent; reflexivity | reflexivity]].
    repeat (eapply submit_interleaved_cons; [apply rtc_refl|]).
    apply submit_interleaved_nil. apply prio_run_schedule_steps.
  - set (p1 := run_schedule [0; 0]%nat
                 (submit_priority (new_pool 4) Low "Low priority task")).
    set (p2 := run_schedule [1; 1]%nat
                 (submit_priority p1 High "High priority task (should run first)")).
    set (p3 := run_schedule [2; 2]%nat
                 (submit_priority p2 Medium "Medium priority task")).
    set (p4 := run_schedule [3; 3; 0; 1; 2; 3]%nat
                 (submit_priority p3 Critical
                    "Critical priority task (should run first)")).
    exists p4.
    split; [|split; [apply four_idle_workers_quiescent; reflexivity | reflexivity]].
    eapply submit_interleaved_cons; [apply rtc_refl|].
    eapply submit_interleaved_cons; [apply (prio_run_schedule_steps [0; 0]%nat)|].
    eapply submit_interleaved_cons; [apply (prio_run_schedule_steps [1; 1]%nat)|].
    eapply submit_interleaved_cons; [apply (prio_run_schedule_steps [2; 2]%nat)|].
    apply submit_interleaved_nil. apply prio_run_schedule_steps.
Qed.

End PriorityDemoFacts.
